(** * asus_qca_fix_checksum: checksum fix for ASUS QCA/QCN SoC uImage

    A shallow embedding of [src/asus_qca_fix_checksum.c] and the proofs of
    the properties its specification states.

    Conventions of the embedding.
    - A byte is [Byte.byte]; a buffer is a [list byte] indexed from 0.
    - Wider C integers are [Z] with their wrap-around written out
      ([uint16_of_Z], [uint32_of_Z], [size_t_of_Z]).
    - The build host is LP64 ([size_t] and [off_t] are 64 bits wide); its
      byte order is a parameter [h], since the code stores the two 16-bit
      fields of the tail record in host order.
    - Every access to the buffer is checked against the size of the
      buffer: an access outside it is undefined behaviour in C and is the
      outcome [OutOfBounds] here.
    - [exit(1)] after a message on stderr is the outcome [Exit].
    - The functions of libc and zlib the program calls ([ntohl], [htonl],
      [sscanf], [getopt], [crc32], the system calls) are modelled from
      their documentation. *)

From Stdlib Require Import ZArith Lia Strings.Byte Ascii String.
From stdpp Require Import list strings pretty.

Local Open Scope Z_scope.

(** ** Machine integers *)

Definition Z_of_uint8 (b : byte) : Z := Z.of_N (Byte.to_N b).

Definition uint8_of_Z (z : Z) : byte :=
  default x00 (Byte.of_N (Z.to_N (z mod 2 ^ 8))).

Definition uint16_of_Z (z : Z) : Z := z mod 2 ^ 16.
Definition uint32_of_Z (z : Z) : Z := z mod 2 ^ 32.
Definition size_t_of_Z (z : Z) : Z := z mod 2 ^ 64.

(** ** Byte order *)

Inductive byte_order := LittleEndian | BigEndian.

(** The value of a sequence of bytes, least significant byte first. *)
Fixpoint le_decode (bs : list byte) : Z :=
  match bs with
  | [] => 0
  | b :: bs' => Z_of_uint8 b + 2 ^ 8 * le_decode bs'
  end.

(** The [n] low bytes of [v], least significant byte first. *)
Fixpoint le_encode (n : nat) (v : Z) : list byte :=
  match n with
  | O => []
  | S n' => uint8_of_Z v :: le_encode n' (Z.shiftr v 8)
  end.

Definition be_decode (bs : list byte) : Z := le_decode (reverse bs).
Definition be_encode (n : nat) (v : Z) : list byte := reverse (le_encode n v).

(** How the host keeps an [n]-byte integer in memory. *)
Definition host_decode (h : byte_order) (bs : list byte) : Z :=
  match h with
  | LittleEndian => le_decode bs
  | BigEndian => be_decode bs
  end.

Definition host_encode (h : byte_order) (n : nat) (v : Z) : list byte :=
  match h with
  | LittleEndian => le_encode n v
  | BigEndian => be_encode n v
  end.

(** [ntohl]: the host integer whose bytes in memory are a 32-bit number in
    network (big-endian) order, converted to that number. *)
Definition ntohl (h : byte_order) (netlong : Z) : Z :=
  be_decode (host_encode h 4 netlong).

(** [htonl]: the host integer whose bytes in memory are [hostlong] in
    network order. *)
Definition htonl (h : byte_order) (hostlong : Z) : Z :=
  host_decode h (be_encode 4 hostlong).

(** ** Outcomes of a run *)

Inductive result (A : Type) : Type :=
  | Ok (a : A)
  | Exit (status : Z) (err : string)
  | OutOfBounds (off : Z) (n : nat).

Arguments Ok {A} a.
Arguments Exit {A} status err.
Arguments OutOfBounds {A} off n.

Definition bind {A B} (r : result A) (k : A -> result B) : result B :=
  match r with
  | Ok a => k a
  | Exit s e => Exit s e
  | OutOfBounds off n => OutOfBounds off n
  end.

Notation "x <- r ;; k" := (bind r (fun x => k))
  (at level 100, r at next level, right associativity).

(** ** Access to the buffer *)

Definition in_bounds (image : list byte) (off : Z) (n : nat) : bool :=
  (0 <=? off) && (off + Z.of_nat n <=? Z.of_nat (length image)).

Definition load_bytes (image : list byte) (off : Z) (n : nat)
  : result (list byte) :=
  if in_bounds image off n
  then Ok (take n (drop (Z.to_nat off) image))
  else OutOfBounds off n.

Definition store_bytes (image : list byte) (off : Z) (bs : list byte)
  : result (list byte) :=
  if in_bounds image off (length bs)
  then Ok (list_inserts (Z.to_nat off) bs image)
  else OutOfBounds off (length bs).

Definition load_uint8 (image : list byte) (off : Z) : result byte :=
  bs <- load_bytes image off 1 ;;
  Ok (default x00 (head bs)).

Definition load_uint32 (h : byte_order) (image : list byte) (off : Z)
  : result Z :=
  bs <- load_bytes image off 4 ;;
  Ok (host_decode h bs).

Definition store_uint32 (h : byte_order) (image : list byte) (off : Z) (v : Z)
  : result (list byte) :=
  store_bytes image off (host_encode h 4 v).

(** ** The ASUS tail record *)

Definition MAX_STRING : nat := 12.
Definition MAX_VER : nat := 5.

Record version_t := { major : byte; minor : byte }.

Record TAIL := {
  kernel : version_t;
  fs : version_t;
  productid : list byte;   (* char productid[MAX_STRING] *)
  sn : Z;                  (* uint16_t *)
  en : Z;                  (* uint16_t *)
  pkey : byte;
  key : byte;
  hw : list version_t      (* version_t hw[MAX_VER] *)
}.

(** The values a [TAIL] object can hold: arrays of the declared sizes and
    16-bit numbers. *)
Record TAIL_wf (t : TAIL) : Prop := {
  wf_productid : length (productid t) = MAX_STRING;
  wf_hw : length (hw t) = MAX_VER;
  wf_sn : 0 <= sn t < 2 ^ 16;
  wf_en : 0 <= en t < 2 ^ 16
}.

Definition version_bytes (v : version_t) : list byte := [major v; minor v].

(** The object representation of a [TAIL]: the members in declaration
    order; every member is aligned as it stands, so there is no padding. *)
Definition TAIL_bytes (h : byte_order) (t : TAIL) : list byte :=
  version_bytes (kernel t) ++ version_bytes (fs t) ++ productid t
  ++ host_encode h 2 (sn t) ++ host_encode h 2 (en t)
  ++ [pkey t; key t] ++ concat (version_bytes <$> hw t).

Definition set_key (t : TAIL) (k : byte) : TAIL :=
  {| kernel := kernel t; fs := fs t; productid := productid t;
     sn := sn t; en := en t; pkey := pkey t; key := k; hw := hw t |}.

Definition set_productid (t : TAIL) (p : list byte) : TAIL :=
  {| kernel := kernel t; fs := fs t; productid := p;
     sn := sn t; en := en t; pkey := pkey t; key := key t; hw := hw t |}.

(** ** The legacy image header: offsets of the members *)

Definition IH_NMLEN : nat := 32.

Definition off_ih_magic : Z := 0.
Definition off_ih_hcrc : Z := 4.
Definition off_ih_time : Z := 8.
Definition off_ih_size : Z := 12.
Definition off_ih_load : Z := 16.
Definition off_ih_ep : Z := 20.
Definition off_ih_dcrc : Z := 24.
Definition off_ih_os : Z := 28.
Definition off_ih_arch : Z := 29.
Definition off_ih_type : Z := 30.
Definition off_ih_comp : Z := 31.
Definition off_u : Z := 32.             (* ih_name and tail share it *)
Definition sizeof_image_header_t : Z := 64.

(** Offsets of the members of [TAIL] inside the record. *)
Definition off_productid : Z := 4.
Definition off_key : Z := 21.

(** ** zlib's crc32 *)

Definition crc32_poly : Z := 0xEDB88320.

Definition crc32_shift (c : Z) : Z :=
  if Z.testbit c 0
  then Z.lxor (Z.shiftr c 1) crc32_poly
  else Z.shiftr c 1.

Definition crc32_byte (c : Z) (b : byte) : Z :=
  Nat.iter 8 crc32_shift (Z.lxor c (Z_of_uint8 b)).

(** [crc32 crc buf]: the running CRC-32 [crc] updated with the bytes of
    [buf]. *)
Definition crc32 (crc : Z) (buf : list byte) : Z :=
  Z.lxor (foldl crc32_byte (Z.lxor crc 0xFFFFFFFF) buf) 0xFFFFFFFF.

(** ** fix_checksum *)

Definition nl : string := String "010" "".
Definition tab : string := String "009" "".

Definition too_small : string := "too small uImage size" +:+ nl.

(** [(ntohl(header->ih_size) + sizeof(image_header_t)) >> 1]: the sum is
    made in [size_t], the result is kept in a [uint32_t]. *)
Definition checksum_b_offset_of (ih_size : Z) : Z :=
  uint32_of_Z (Z.shiftr (size_t_of_Z (ih_size + sizeof_image_header_t)) 1).

Definition fix_checksum (h : byte_order) (image : list byte) (image_len : Z)
    (tail : TAIL) : result (list byte * TAIL) :=
  let checksum_a_offset := 0 in
  ih_size <- load_uint32 h image off_ih_size ;;
  let checksum_b_offset := checksum_b_offset_of (ntohl h ih_size) in
  checksum_a <- load_uint8 image checksum_a_offset ;;
  if image_len <? checksum_b_offset then Exit 1 too_small
  else
    checksum_b <- load_uint8 image checksum_b_offset ;;
    let tail :=
      set_key tail
        (uint8_of_Z (Z_of_uint8 checksum_a + Z.lnot (Z_of_uint8 checksum_b))) in
    (* copy an existing image name *)
    name <- load_bytes image off_u (MAX_STRING - 1) ;;
    let tail :=
      set_productid tail (name ++ drop (MAX_STRING - 1) (productid tail)) in
    (* overwrite asus custom header to image name field *)
    image <- store_bytes image off_u (TAIL_bytes h tail) ;;
    image <- store_uint32 h image off_ih_hcrc 0 ;;
    hdr <- load_bytes image 0 (Z.to_nat sizeof_image_header_t) ;;
    let recalc_crc := uint32_of_Z (crc32 0 hdr) in
    image <- store_uint32 h image off_ih_hcrc (htonl h recalc_crc) ;;
    Ok (image, tail).

(** The offset the size check compares with, when the buffer holds the
    data-size field. *)
Definition checksum_b_offset (h : byte_order) (image : list byte) : option Z :=
  match load_uint32 h image off_ih_size with
  | Ok ih_size => Some (checksum_b_offset_of (ntohl h ih_size))
  | _ => None
  end.

(** ** sscanf of the version string

    [sscanf(version, "%hhu.%hhu.%hhu.%hhu.%hu.%hu", ...)] as glibc does it:
    a conversion skips white space, takes an optional sign and then
    decimal digits, converts them as [strtoul] does and stores the value
    narrowed to the width of its argument; a period in the format matches
    one period.  Scanning stops at the first directive that fails. *)

Definition isspace (a : ascii) : bool :=
  let n := N_of_ascii a in
  ((n =? 32) || ((9 <=? n) && (n <=? 13)))%N.

Definition isdigit (a : ascii) : bool :=
  let n := N_of_ascii a in
  ((48 <=? n) && (n <=? 57))%N.

Definition digit_value (a : ascii) : Z := Z.of_N (N_of_ascii a) - 48.

Fixpoint skip_space (s : string) : string :=
  match s with
  | String a s' => if isspace a then skip_space s' else s
  | EmptyString => s
  end.

(** The longest prefix of digits, and what follows it. *)
Fixpoint read_digits (s : string) : list Z * string :=
  match s with
  | String a s' =>
      if isdigit a
      then let '(ds, rest) := read_digits s' in (digit_value a :: ds, rest)
      else ([], s)
  | EmptyString => ([], s)
  end.

Definition decimal (ds : list Z) : Z := foldl (fun acc d => 10 * acc + d) 0 ds.

Definition ULONG_MAX : Z := 2 ^ 64 - 1.

Definition strtoul (negative : bool) (magnitude : Z) : Z :=
  if ULONG_MAX <? magnitude then ULONG_MAX
  else if negative then size_t_of_Z (- magnitude)
  else magnitude.

Inductive scanned (A : Type) : Type :=
  | Converted (v : A) (rest : string)
  | MatchingFailure
  | InputFailure.

Arguments Converted {A} v rest.
Arguments MatchingFailure {A}.
Arguments InputFailure {A}.

Definition scan_unsigned (s : string) : scanned Z :=
  match skip_space s with
  | EmptyString => InputFailure
  | String a s' =>
      let '(negative, s1) :=
        if (a =? "-")%char then (true, s')
        else if (a =? "+")%char then (false, s')
        else (false, String a s') in
      match read_digits s1 with
      | ([], _) => MatchingFailure
      | (ds, rest) => Converted (strtoul negative (decimal ds)) rest
      end
  end.

Definition scan_period (s : string) : scanned unit :=
  match s with
  | EmptyString => InputFailure
  | String a s' => if (a =? ".")%char then Converted tt s' else MatchingFailure
  end.

(** The objects the six conversions store into. *)
Inductive version_field :=
  | kernel_major | kernel_minor | fs_major | fs_minor | serial_no | extra_no.

Definition version_fields : list version_field :=
  [kernel_major; kernel_minor; fs_major; fs_minor; serial_no; extra_no].

Definition set_major (v : version_t) (b : byte) : version_t :=
  {| major := b; minor := minor v |}.
Definition set_minor (v : version_t) (b : byte) : version_t :=
  {| major := major v; minor := b |}.

Definition assign (f : version_field) (v : Z) (t : TAIL) : TAIL :=
  let k := kernel t in
  let s := fs t in
  match f with
  | kernel_major =>
      {| kernel := set_major k (uint8_of_Z v); fs := s;
         productid := productid t; sn := sn t; en := en t;
         pkey := pkey t; key := key t; hw := hw t |}
  | kernel_minor =>
      {| kernel := set_minor k (uint8_of_Z v); fs := s;
         productid := productid t; sn := sn t; en := en t;
         pkey := pkey t; key := key t; hw := hw t |}
  | fs_major =>
      {| kernel := k; fs := set_major s (uint8_of_Z v);
         productid := productid t; sn := sn t; en := en t;
         pkey := pkey t; key := key t; hw := hw t |}
  | fs_minor =>
      {| kernel := k; fs := set_minor s (uint8_of_Z v);
         productid := productid t; sn := sn t; en := en t;
         pkey := pkey t; key := key t; hw := hw t |}
  | serial_no =>
      {| kernel := k; fs := s; productid := productid t;
         sn := uint16_of_Z v; en := en t;
         pkey := pkey t; key := key t; hw := hw t |}
  | extra_no =>
      {| kernel := k; fs := s; productid := productid t;
         sn := sn t; en := uint16_of_Z v;
         pkey := pkey t; key := key t; hw := hw t |}
  end.

Definition EOF : Z := -1.

(** [sscanf_fields fields s done t]: scan [s] for the conversions that
    remain, [done] of them made already; the count [sscanf] returns and the
    tail record after the assignments. *)
Fixpoint sscanf_fields (fields : list version_field) (s : string) (done : Z)
    (t : TAIL) : Z * TAIL :=
  match fields with
  | [] => (done, t)
  | f :: fields' =>
      match scan_unsigned s with
      | InputFailure => (if done =? 0 then EOF else done, t)
      | MatchingFailure => (done, t)
      | Converted v rest =>
          let t := assign f v t in
          let done := done + 1 in
          match fields' with
          | [] => (done, t)
          | _ :: _ =>
              match scan_period rest with
              | Converted _ rest' => sscanf_fields fields' rest' done t
              | _ => (done, t)
              end
          end
      end
  end.

Definition sscanf_version (version : string) (t : TAIL) : Z * TAIL :=
  sscanf_fields version_fields version 0 t.

(** ** main *)

(** [TAIL tail = {};] *)
Definition TAIL_zero : TAIL :=
  {| kernel := {| major := x00; minor := x00 |};
     fs := {| major := x00; minor := x00 |};
     productid := replicate MAX_STRING x00;
     sn := 0; en := 0; pkey := x00; key := x00;
     hw := replicate MAX_VER {| major := x00; minor := x00 |} |}.

(** What the option loop has gathered. *)
Record options := {
  infname : option string;
  outfname : option string;
  version : option string;
  tail : TAIL;
  warnings : string          (* written to stderr so far *)
}.

Definition options_init : options :=
  {| infname := None; outfname := None; version := None;
     tail := TAIL_zero; warnings := "" |}.

Definition bad_version (version : string) : string :=
  "Version " +:+ version +:+ " doesn't match suppored 6-digits format" +:+ nl.

(** One turn of the loop: the call of [getopt] and the [switch] on what it
    returned.  For an option of the program, [arg] is [optarg].  [getopt]
    returns ['?'] for an unknown option and for an option that lacks its
    argument, after it has written a line about it to stderr ([opterr] is
    never cleared); [arg] stands for that line then, and the [default]
    branch itself does nothing. *)
Definition handle_option (o : options) (g : ascii * string) : options :=
  let '(opt, arg) := g in
  if (opt =? "i")%char then
    {| infname := Some arg; outfname := outfname o; version := version o;
       tail := tail o; warnings := warnings o |}
  else if (opt =? "o")%char then
    {| infname := infname o; outfname := Some arg; version := version o;
       tail := tail o; warnings := warnings o |}
  else if (opt =? "v")%char then
    let '(n, t) := sscanf_version arg (tail o) in
    {| infname := infname o; outfname := outfname o; version := Some arg;
       tail := t;
       warnings :=
         if n =? 6 then warnings o else warnings o +:+ bad_version arg |}
  else if (opt =? "?")%char then
    {| infname := infname o; outfname := outfname o; version := version o;
       tail := tail o; warnings := warnings o +:+ arg |}
  else o.

(** The lines [getopt] writes to stderr, [prog] being [argv[0]]. *)
Definition invalid_option (prog : string) (c : ascii) : string :=
  prog +:+ ": invalid option -- '" +:+ String c "'" +:+ nl.

Definition requires_argument (prog : string) (c : ascii) : string :=
  prog +:+ ": option requires an argument -- '" +:+ String c "'" +:+ nl.

(** [getopt] over the characters of one element of [argv] after its
    hyphen; [next] is the element that follows.  The results, and whether
    [next] was taken as an argument.  With the option string ["i:o:v:"]
    each of [i], [o], [v] takes the rest of the element as its argument,
    or the next element when nothing is left. *)
Fixpoint getopt_element (prog : string) (chars : string) (next : option string)
  : list (ascii * string) * bool :=
  match chars with
  | EmptyString => ([], false)
  | String c rest =>
      if ((c =? "i") || (c =? "o") || (c =? "v"))%char then
        match rest, next with
        | String _ _, _ => ([(c, rest)], false)
        | EmptyString, Some a => ([(c, a)], true)
        | EmptyString, None =>
            ([("?"%char, requires_argument prog c)], false)
        end
      else
        let '(results, taken) := getopt_element prog rest next in
        (("?"%char, invalid_option prog c) :: results, taken)
  end.

(** What the successive calls of [getopt(argc, argv, "i:o:v:")] return for
    the arguments [args] that follow [argv[0]], as glibc does it: elements
    that are not options are passed over, and ["--"] ends the scan. *)
Fixpoint getopt (prog : string) (args : list string) : list (ascii * string) :=
  match args with
  | [] => []
  | a :: args' =>
      match a with
      | String "-" (String c rest) =>
          if ((c =? "-")%char && (if rest is EmptyString then true else false))
          then []
          else
            match args' with
            | [] => (getopt_element prog (String c rest) None).1
            | b :: args'' =>
                let '(results, taken) :=
                  getopt_element prog (String c rest) (Some b) in
                results ++ (if taken then getopt prog args''
                            else getopt prog args')
            end
      | _ => getopt prog args'
      end
  end.

Definition usage (prog : string) : string :=
  prog +:+ " -i <input_uimage_file> -o <output_file>" +:+ nl
  +:+ tab +:+ tab +:+ "-v <asuswrt version (ex. 3.0.0.4.382.52482)>".

(** The system as [main] sees it: what each call answers.  A failing call
    answers the value of [errno]. *)
Record world := {
  open_rdonly : string -> Z + list byte;   (* the contents of the file *)
  open_wronly_creat : string -> option Z;
  fstat_errno : option Z;
  malloc_null : bool;
  read_errno : option Z;                   (* read returned a short count *)
  write_errno : option Z                   (* write returned a short count *)
}.

Inductive written :=
  | NotWritten                  (* write was not called *)
  | Written (bs : list byte)    (* write put all of [bs] into the file *)
  | ShortWrite.

(** After an access outside the buffer the behaviour of the program is
    undefined: [stderr] and [output] of the outcome say nothing then. *)
Inductive termination :=
  | Exited (status : Z)
  | Undefined (off : Z) (n : nat).   (* an access outside the buffer *)

Record outcome := {
  how : termination;
  stderr : string;
  output : written
}.

(** [fprintf(stderr, "... %d ...", errno)] *)
Definition with_errno (before : string) (e : Z) (after : string) : string :=
  before +:+ pretty e +:+ after.

Definition die (err : string) : outcome :=
  {| how := Exited 1; stderr := err; output := NotWritten |}.

(** [while ((opt = getopt(argc, argv, "i:o:v:")) != -1)]: [opts] lists what
    the successive calls of [getopt] return ([getopt prog args] above, for
    a command line). *)
Definition getopt_loop (opts : list (ascii * string)) : options :=
  foldl handle_option options_init opts.

Definition main (h : byte_order) (w : world) (prog : string)
    (opts : list (ascii * string)) : outcome :=
  let o := getopt_loop opts in
  let err := warnings o in
  match infname o, outfname o, version o with
  | Some infname, Some outfname, Some _ =>
      match open_rdonly w infname with
      | inl e =>
          die (err +:+ with_errno "could not open input file. (errno = " e ")"
               +:+ nl)
      | inr contents =>
          match open_wronly_creat w outfname with
          | Some e =>
              die (err
                   +:+ with_errno "could not open output file. (errno = " e ")"
                   +:+ nl)
          | None =>
              match fstat_errno w with
              | Some e =>
                  die (err
                       +:+ with_errno "could not fstat input file. (errno = "
                             e ")"
                       +:+ nl)
              | None =>
                  let st_size := Z.of_nat (length contents) in
                  if malloc_null w
                  then die (err +:+ "buffer allocation failed" +:+ nl)
                  else
                    match read_errno w with
                    | Some e =>
                        die (err
                             +:+ with_errno
                                   "could not read input file (errno = " e ")."
                             +:+ nl)
                    | None =>
                        match fix_checksum h contents st_size (tail o) with
                        | Exit status msg =>
                            {| how := Exited status; stderr := err +:+ msg;
                               output := NotWritten |}
                        | OutOfBounds off n =>
                            {| how := Undefined off n; stderr := err;
                               output := NotWritten |}
                        | Ok (filebuf, _) =>
                            match write_errno w with
                            | Some e =>
                                {| how := Exited 1;
                                   stderr :=
                                     err
                                     +:+ with_errno
                                           "could not write output file (errnor = "
                                           e ")."
                                     +:+ nl;
                                   output := ShortWrite |}
                            | None =>
                                {| how := Exited 0; stderr := err;
                                   output := Written filebuf |}
                            end
                        end
                    end
              end
          end
      end
  | _, _, _ => die (err +:+ usage prog)
  end.

(** ** Test data *)

Definition bytes_of_string (s : string) : list byte :=
  (fun a => uint8_of_Z (Z.of_N (N_of_ascii a))) <$> list_ascii_of_string s.

(** A world in which no call fails and every input file holds [image]. *)
Definition file_world (image : list byte) : world :=
  {| open_rdonly := fun _ => inr image;
     open_wronly_creat := fun _ => None;
     fstat_errno := None;
     malloc_null := false;
     read_errno := None;
     write_errno := None |}.

Definition demo_version : string := "3.0.0.4.382.52482".

Definition demo_opts (version : string) : list (ascii * string) :=
  [("i"%char, "uImage"); ("o"%char, "uImage.fixed"); ("v"%char, version)].

Definition demo_tail : TAIL := (sscanf_version demo_version TAIL_zero).2.

(** A header alone: magic, data size 64, name "OpenWrt". *)
Definition demo_header : list byte :=
  [x27; x05; x19; x56;  x00; x00; x00; x00;  x00; x00; x00; x00;
   x00; x00; x00; x40;  x00; x00; x00; x00;  x00; x00; x00; x00;
   x00; x00; x00; x00;  x05; x02; x02; x00]
  ++ take 32 (bytes_of_string "OpenWrt" ++ replicate 32 x00).

(** The header with its 64 bytes of payload. *)
Definition demo_image : list byte := demo_header ++ replicate 64 xaa.

(** A header that declares 1024 bytes of data, in a buffer of [n] bytes. *)
Definition header_1024 : list byte :=
  [x27; x05; x19; x56;  x00; x00; x00; x00;  x00; x00; x00; x00;
   x00; x00; x04; x00;  x00; x00; x00; x00;  x00; x00; x00; x00;
   x00; x00; x00; x00;  x05; x02; x02; x00]
  ++ take 32 (bytes_of_string "OpenWrt" ++ replicate 32 x00).

Definition image_1024 (n : nat) : list byte :=
  header_1024 ++ replicate (n - 64) x55.

(** ** Notions the statements use *)

(** The run of [main] gets as far as the call of [fix_checksum], with
    [image] in the buffer: the three options were given and no call
    failed. *)
Definition reads (w : world) (o : options) (image : list byte) : Prop :=
  exists inf outf,
    infname o = Some inf /\ outfname o = Some outf /\ is_Some (version o)
    /\ open_rdonly w inf = inr image
    /\ open_wronly_creat w outf = None
    /\ fstat_errno w = None /\ malloc_null w = false /\ read_errno w = None.

(** [msg] occurs in what was written to stderr. *)
Definition reported (msg err : string) : bool :=
  if index 0 msg err is Some _ then true else false.

(** Assignments made one after the other. *)
Definition assign_all (fvs : list (version_field * Z)) (t : TAIL) : TAIL :=
  foldl (fun t fv => assign fv.1 fv.2 t) t fvs.

(** The number a version field of the tail record holds. *)
Definition field_value (f : version_field) (t : TAIL) : Z :=
  match f with
  | kernel_major => Z_of_uint8 (major (kernel t))
  | kernel_minor => Z_of_uint8 (minor (kernel t))
  | fs_major => Z_of_uint8 (major (fs t))
  | fs_minor => Z_of_uint8 (minor (fs t))
  | serial_no => sn t
  | extra_no => en t
  end.

(** The width in bits of the object a conversion stores into. *)
Definition field_bits (f : version_field) : Z :=
  match f with
  | serial_no | extra_no => 16
  | _ => 8
  end.

(** The option is not [-v]. *)
Definition not_v (g : ascii * string) : Prop := g.1 <> "v"%char.

(** The patcher as a function of the version string and the input file:
    what a run writes when no call fails. *)
Definition patch (h : byte_order) (version : string) (image : list byte)
  : written :=
  output (main h (file_world image) "asus_qca_fix_checksum" (demo_opts version)).

(** The tail record as [fix_checksum] leaves it, [a] and [b] being the two
    checksum bytes. *)
Definition fixed_tail (image : list byte) (tail : TAIL) (a b : byte) : TAIL :=
  set_productid
    (set_key tail (uint8_of_Z (Z_of_uint8 a + Z.lnot (Z_of_uint8 b))))
    (take 11 (drop 32 image) ++ drop 11 (productid tail)).

(** The buffer after the overlay of the tail and the zeroing of [ih_hcrc]. *)
Definition overlaid (h : byte_order) (image : list byte) (t : TAIL)
  : list byte :=
  list_inserts 4 [x00; x00; x00; x00] (list_inserts 32 (TAIL_bytes h t) image).

(** What the specification says of a buffer that is too small: the error
    "too small image size" is reported, the status is not zero and nothing
    was written. *)
Definition fails_as_specified (r : outcome) : Prop :=
  reported "too small image size" (stderr r) = true
  /\ (exists status, how r = Exited status /\ status <> 0)
  /\ output r = NotWritten.

(** ** Notions the further statements use *)

(** The option [-c] occurs on the command line. *)
Definition given (c : ascii) (opts : list (ascii * string)) : Prop :=
  Exists (fun g => g.1 = c) opts.

(** A component of a version string: one decimal digit or more. *)
Definition all_digits (s : string) : bool :=
  match s with
  | EmptyString => false
  | String _ _ => forallb isdigit (list_ascii_of_string s)
  end.

(** The number a component writes. *)
Definition number (s : string) : Z :=
  decimal (digit_value <$> list_ascii_of_string s).

(** What may follow a number: the end of the string or a character that is
    not a digit. *)
Definition ends_number (rest : string) : bool :=
  match rest with
  | EmptyString => true
  | String a _ => negb (isdigit a)
  end.

(** What may follow the last component of a version string with fewer than
    six: the end of the string or a character that is neither a digit nor
    a period. *)
Definition ends_fields (rest : string) : bool :=
  match rest with
  | EmptyString => true
  | String a _ => negb (isdigit a) && negb (a =? ".")%char
  end.

(** ** Notions the statements about the version string use *)

(** The numbers [sscanf] converts from a version string: up to [k] numbers,
    each followed by one period except the last. *)
Fixpoint leading_numbers (k : nat) (s : string) : list Z :=
  match k with
  | O => []
  | S k' =>
      match scan_unsigned s with
      | Converted v rest =>
          v :: match k' with
               | O => []
               | S _ =>
                   match scan_period rest with
                   | Converted _ rest' => leading_numbers k' rest'
                   | _ => []
                   end
               end
      | _ => []
      end
  end.

(** The pieces of a string between its periods. *)
Fixpoint split_periods (s : string) : list string :=
  match s with
  | EmptyString => [EmptyString]
  | String a s' =>
      if (a =? ".")%char then EmptyString :: split_periods s'
      else
        match split_periods s' with
        | c :: cs => String a c :: cs
        | [] => [String a EmptyString]
        end
  end.

(** In the words of the specification: the string decomposes into exactly
    six unsigned integers separated by periods. *)
Definition six_dotted_fields (s : string) : bool :=
  let cs := split_periods s in
  (length cs =? 6)%nat && forallb all_digits cs.

(** Two tail records agree on all that [fix_checksum] reads of them: every
    member but [key], and of [productid] the last byte. *)
Definition same_members (t1 t2 : TAIL) : Prop :=
  kernel t1 = kernel t2 /\ fs t1 = fs t2
  /\ sn t1 = sn t2 /\ en t1 = en t2
  /\ pkey t1 = pkey t2 /\ hw t1 = hw t2
  /\ productid t1 !! 11%nat = productid t2 !! 11%nat.

(** * Properties *)

(** ** Bytes and byte order *)

Lemma Z_of_uint8_range (b : byte) : 0 <= Z_of_uint8 b < 2 ^ 8.
Proof.
  unfold Z_of_uint8. pose proof (Byte.to_N_bounded b). lia.
Qed.

Lemma uint8_of_Z_of_uint8 (b : byte) : uint8_of_Z (Z_of_uint8 b) = b.
Proof.
  unfold uint8_of_Z.
  rewrite Z.mod_small by apply Z_of_uint8_range.
  unfold Z_of_uint8. by rewrite N2Z.id, Byte.of_to_N.
Qed.

Lemma Z_of_uint8_of_Z (z : Z) : Z_of_uint8 (uint8_of_Z z) = z mod 2 ^ 8.
Proof.
  unfold uint8_of_Z, Z_of_uint8.
  assert (0 <= z mod 2 ^ 8 < 2 ^ 8) as Hr by (apply Z.mod_pos_bound; lia).
  destruct (Byte.of_N (Z.to_N (z mod 2 ^ 8))) as [b|] eqn:E; simpl.
  - apply Byte.to_of_N in E. rewrite E. lia.
  - apply Byte.of_N_None_iff in E. lia.
Qed.

Lemma uint8_of_Z_mod (z : Z) : uint8_of_Z (z mod 2 ^ 8) = uint8_of_Z z.
Proof. unfold uint8_of_Z. by rewrite Z.mod_mod by lia. Qed.

Lemma length_le_encode (n : nat) (v : Z) : length (le_encode n v) = n.
Proof. revert v. induction n as [|n IH]; intros v; simpl; [done|]. by rewrite IH. Qed.

Lemma le_encode_decode (bs : list byte) :
  le_encode (length bs) (le_decode bs) = bs.
Proof.
  induction bs as [|b bs IH]; [done|].
  cbn [length le_encode le_decode].
  pose proof (Z_of_uint8_range b) as Hb.
  f_equal.
  - rewrite <- uint8_of_Z_mod.
    replace (Z_of_uint8 b + 2 ^ 8 * le_decode bs)
      with (Z_of_uint8 b + le_decode bs * 2 ^ 8) by lia.
    rewrite Z_mod_plus_full, uint8_of_Z_mod. apply uint8_of_Z_of_uint8.
  - rewrite Z.shiftr_div_pow2 by lia.
    replace (Z_of_uint8 b + 2 ^ 8 * le_decode bs)
      with (le_decode bs * 2 ^ 8 + Z_of_uint8 b) by lia.
    rewrite Z.div_add_l by lia.
    rewrite (Z.div_small (Z_of_uint8 b)) by lia.
    rewrite Z.add_0_r. apply IH.
Qed.

Lemma le_decode_encode (n : nat) (v : Z) :
  le_decode (le_encode n v) = v mod 2 ^ (8 * Z.of_nat n).
Proof.
  revert v. induction n as [|n IH]; intros v; cbn [le_encode le_decode].
  - change (2 ^ (8 * Z.of_nat 0)) with 1. by rewrite Z.mod_1_r.
  - rewrite IH, Z_of_uint8_of_Z, Z.shiftr_div_pow2 by lia.
    replace (8 * Z.of_nat (S n)) with (8 + 8 * Z.of_nat n) by lia.
    rewrite Z.pow_add_r by lia.
    rewrite Z.rem_mul_r by lia. done.
Qed.

Lemma length_host_encode (h : byte_order) (n : nat) (v : Z) :
  length (host_encode h n v) = n.
Proof.
  destruct h; simpl; unfold be_encode;
    by rewrite ?length_reverse, length_le_encode.
Qed.

Lemma host_encode_decode (h : byte_order) (bs : list byte) :
  host_encode h (length bs) (host_decode h bs) = bs.
Proof.
  destruct h; simpl.
  - apply le_encode_decode.
  - unfold be_encode, be_decode.
    rewrite <- (length_reverse bs), le_encode_decode.
    apply reverse_involutive.
Qed.

Lemma host_decode_encode (h : byte_order) (n : nat) (v : Z) :
  host_decode h (host_encode h n v) = v mod 2 ^ (8 * Z.of_nat n).
Proof.
  destruct h; simpl; unfold be_encode, be_decode;
    rewrite ?reverse_involutive; apply le_decode_encode.
Qed.

(** [ntohl] of a field read from memory is the big-endian value of its
    bytes, whatever the host. *)
Lemma ntohl_host_decode (h : byte_order) (bs : list byte) :
  length bs = 4%nat -> ntohl h (host_decode h bs) = be_decode bs.
Proof.
  intros Hlen. unfold ntohl. by rewrite <- Hlen, host_encode_decode.
Qed.

(** Storing [htonl v] puts the big-endian bytes of [v] into memory,
    whatever the host. *)
Lemma host_encode_htonl (h : byte_order) (v : Z) :
  host_encode h 4 (htonl h v) = be_encode 4 v.
Proof.
  unfold htonl.
  assert (length (be_encode 4 v) = 4%nat) as Hlen
    by (unfold be_encode; by rewrite length_reverse, length_le_encode).
  rewrite <- Hlen at 1. apply host_encode_decode.
Qed.

Lemma be_decode_encode (n : nat) (v : Z) :
  be_decode (be_encode n v) = v mod 2 ^ (8 * Z.of_nat n).
Proof. apply (host_decode_encode BigEndian). Qed.

Lemma host_encode_zero (h : byte_order) :
  host_encode h 4 0 = [x00; x00; x00; x00].
Proof. by destruct h. Qed.

(** [ntohl] swaps the bytes on a little-endian host and does nothing on a
    big-endian one. *)
Example ntohl_little : ntohl LittleEndian 0x12345678 = 0x78563412.
Proof. reflexivity. Qed.

Example ntohl_big : ntohl BigEndian 0x12345678 = 0x12345678.
Proof. reflexivity. Qed.

(** ** The CRC-32 is a 32-bit number *)

(** The check value of CRC-32 and the CRC of no bytes, as zlib gives them. *)
Example crc32_check :
  crc32 0 (bytes_of_string "123456789") = 0xCBF43926.
Proof. vm_compute. reflexivity. Qed.

Example crc32_empty : crc32 0 [] = 0.
Proof. reflexivity. Qed.

Lemma lxor_range (n a b : Z) :
  0 <= n -> 0 <= a < 2 ^ n -> 0 <= b < 2 ^ n -> 0 <= Z.lxor a b < 2 ^ n.
Proof.
  intros Hn Ha Hb.
  assert (Z.lxor a b = Z.lxor a b mod 2 ^ n) as ->.
  { rewrite <- Z.land_ones by done.
    rewrite <- (Z.mod_small a (2 ^ n)) at 1 by done.
    rewrite <- (Z.mod_small b (2 ^ n)) at 1 by done.
    rewrite <- !Z.land_ones by done.
    apply Z.bits_inj'; intros k _.
    rewrite Z.land_spec, !Z.lxor_spec, !Z.land_spec.
    by destruct (Z.testbit a k), (Z.testbit b k), (Z.testbit (Z.ones n) k). }
  apply Z.mod_pos_bound. lia.
Qed.

Lemma crc32_shift_range (c : Z) :
  0 <= c < 2 ^ 32 -> 0 <= crc32_shift c < 2 ^ 32.
Proof.
  intros Hc. unfold crc32_shift.
  assert (0 <= Z.shiftr c 1 < 2 ^ 32) as Hs.
  { rewrite Z.shiftr_div_pow2 by lia. change (2 ^ 1) with 2.
    split; [apply Z.div_pos; lia|].
    apply Z.div_lt_upper_bound; lia. }
  destruct (Z.testbit c 0); [|done].
  apply lxor_range; [lia|done|]. unfold crc32_poly. lia.
Qed.

Lemma crc32_byte_range (c : Z) (b : byte) :
  0 <= c < 2 ^ 32 -> 0 <= crc32_byte c b < 2 ^ 32.
Proof.
  intros Hc. unfold crc32_byte.
  assert (0 <= Z.lxor c (Z_of_uint8 b) < 2 ^ 32) as H0.
  { apply lxor_range; [lia|done|]. pose proof (Z_of_uint8_range b). lia. }
  generalize dependent (Z.lxor c (Z_of_uint8 b)). intros x Hx.
  cbn [Nat.iter nat_rect].
  by do 8 apply crc32_shift_range.
Qed.

Lemma crc32_range (crc : Z) (buf : list byte) :
  0 <= crc < 2 ^ 32 -> 0 <= crc32 crc buf < 2 ^ 32.
Proof.
  intros Hc. unfold crc32.
  apply lxor_range; [lia| |lia].
  assert (0 <= Z.lxor crc 4294967295 < 2 ^ 32) as H0
    by (apply lxor_range; lia).
  generalize dependent (Z.lxor crc 4294967295). clear Hc crc.
  induction buf as [|b buf IH]; intros c Hc; [done|].
  cbn [foldl]. apply IH. by apply crc32_byte_range.
Qed.

Lemma uint32_of_crc32 (buf : list byte) :
  uint32_of_Z (crc32 0 buf) = crc32 0 buf.
Proof. apply Z.mod_small, crc32_range. lia. Qed.

(** ** Loads and stores *)

Lemma in_bounds_true (image : list byte) (off : Z) (n : nat) :
  in_bounds image off n = true
  <-> 0 <= off /\ off + Z.of_nat n <= Z.of_nat (length image).
Proof. unfold in_bounds. rewrite andb_true_iff, !Z.leb_le. done. Qed.

Lemma load_bytes_ok (image : list byte) (off : Z) (n : nat) :
  0 <= off -> off + Z.of_nat n <= Z.of_nat (length image) ->
  load_bytes image off n = Ok (take n (drop (Z.to_nat off) image)).
Proof.
  intros H0 H1. unfold load_bytes.
  by rewrite (proj2 (in_bounds_true image off n)).
Qed.

Lemma store_bytes_ok (image : list byte) (off : Z) (bs : list byte) :
  0 <= off -> off + Z.of_nat (length bs) <= Z.of_nat (length image) ->
  store_bytes image off bs = Ok (list_inserts (Z.to_nat off) bs image).
Proof.
  intros H0 H1. unfold store_bytes.
  by rewrite (proj2 (in_bounds_true image off (length bs))).
Qed.

Lemma load_uint8_ok (image : list byte) (off : Z) :
  0 <= off < Z.of_nat (length image) ->
  exists b, image !! Z.to_nat off = Some b /\ load_uint8 image off = Ok b.
Proof.
  intros H. unfold load_uint8. rewrite load_bytes_ok by lia.
  destruct (lookup_lt_is_Some_2 image (Z.to_nat off)) as [b Hb]; [lia|].
  exists b. split; [done|]. cbn [bind].
  rewrite <- (take_drop_middle image (Z.to_nat off) b Hb).
  rewrite drop_app_length'
    by (rewrite length_take; apply lookup_lt_Some in Hb; lia).
  done.
Qed.

Lemma length_TAIL_bytes (h : byte_order) (t : TAIL) :
  length (productid t) = MAX_STRING -> length (hw t) = MAX_VER ->
  length (TAIL_bytes h t) = 32%nat.
Proof.
  intros Hp Hh. unfold TAIL_bytes.
  rewrite !length_app, !length_host_encode, Hp.
  destruct (hw t) as [|v0 [|v1 [|v2 [|v3 [|v4 [|]]]]]]; try discriminate.
  done.
Qed.

(** ** What a run of fix_checksum that completes computes *)

Lemma checksum_b_offset_of_range (ih_size : Z) :
  0 <= checksum_b_offset_of ih_size < 2 ^ 32.
Proof. unfold checksum_b_offset_of, uint32_of_Z. apply Z.mod_pos_bound. lia. Qed.

Lemma checksum_b_offset_range (h : byte_order) (image : list byte) (off : Z) :
  checksum_b_offset h image = Some off -> 0 <= off < 2 ^ 32.
Proof.
  unfold checksum_b_offset.
  destruct (load_uint32 h image off_ih_size); intros [= <-].
  apply checksum_b_offset_of_range.
Qed.

Lemma length_overlaid (h : byte_order) (image : list byte) (t : TAIL) :
  length (overlaid h image t) = length image.
Proof. unfold overlaid. by rewrite !length_inserts. Qed.

Lemma fix_checksum_ok (h : byte_order) (image : list byte) (image_len : Z)
    (tail : TAIL) (off : Z) :
  length (productid tail) = MAX_STRING -> length (hw tail) = MAX_VER ->
  (64 <= length image)%nat ->
  checksum_b_offset h image = Some off ->
  off <= image_len ->
  off < Z.of_nat (length image) ->
  exists a b,
    image !! 0%nat = Some a /\ image !! Z.to_nat off = Some b /\
    let t := fixed_tail image tail a b in
    let hdr := take 64 (overlaid h image t) in
    fix_checksum h image image_len tail
    = Ok (list_inserts 4 (be_encode 4 (crc32 0 hdr)) (overlaid h image t), t).
Proof.
  intros Hp Hh Hlen Hoff Hle Hlt.
  pose proof (checksum_b_offset_range _ _ _ Hoff) as Hr.
  unfold checksum_b_offset in Hoff. unfold fix_checksum.
  destruct (load_uint32 h image off_ih_size) as [ih_size| |]; try discriminate.
  injection Hoff as Hoff. cbn [bind]. rewrite Hoff.
  destruct (load_uint8_ok image 0) as (a & Ha & ->); [lia|].
  cbn [bind].
  rewrite (proj2 (Z.ltb_ge image_len off)) by done.
  destruct (load_uint8_ok image off) as (b & Hb & ->); [lia|].
  cbn [bind]. exists a, b. split; [done|]. split; [done|].
  unfold off_u, off_ih_hcrc, sizeof_image_header_t, MAX_STRING in *.
  rewrite load_bytes_ok by lia. cbn [bind].
  change (productid (set_key tail _)) with (productid tail).
  change (12 - 1)%nat with 11%nat. change (Z.to_nat 32) with 32%nat.
  fold (fixed_tail image tail a b).
  set (t := fixed_tail image tail a b).
  assert (length (TAIL_bytes h t) = 32%nat) as Ht.
  { apply length_TAIL_bytes; [|done].
    unfold t, fixed_tail; cbn [productid set_productid].
    rewrite length_app, length_take, length_drop, length_drop, Hp.
    unfold MAX_STRING. lia. }
  rewrite store_bytes_ok by lia. cbn [bind].
  unfold store_uint32.
  rewrite store_bytes_ok
    by (rewrite ?length_host_encode, ?length_inserts; lia).
  cbn [bind]. rewrite host_encode_zero.
  change (Z.to_nat 4) with 4%nat. change (Z.to_nat 32) with 32%nat.
  fold (overlaid h image t).
  rewrite load_bytes_ok by (rewrite ?length_overlaid; lia).
  cbn [bind]. rewrite uint32_of_crc32, host_encode_htonl.
  rewrite store_bytes_ok
    by (unfold be_encode;
        rewrite ?length_reverse, ?length_le_encode, ?length_overlaid; lia).
  done.
Qed.

(** ** Overwriting a range of a list *)

Section inserts.

Context {A : Type}.
Implicit Types (l k : list A) (i j : nat).

Lemma take_drop_inserts l k i :
  (i + length k <= length l)%nat ->
  take (length k) (drop i (list_inserts i k l)) = k.
Proof.
  intros Hlen. apply list_eq; intros j.
  destruct (decide (j < length k)%nat) as [Hj|Hj].
  - rewrite lookup_take_lt, lookup_drop by done.
    rewrite list_lookup_inserts by lia. f_equal. lia.
  - rewrite lookup_take_ge by lia. symmetry. apply lookup_ge_None_2. lia.
Qed.

Lemma list_inserts_twice l k k' i :
  length k = length k' ->
  list_inserts i k (list_inserts i k' l) = list_inserts i k l.
Proof.
  intros Hlen. apply list_eq; intros j.
  destruct (decide (j < i)%nat) as [Hlt|Hge].
  { by rewrite !list_lookup_inserts_lt. }
  destruct (decide (i + length k <= j)%nat) as [Hout|Hin].
  { rewrite !list_lookup_inserts_ge by lia. done. }
  destruct (decide (j < length l)%nat) as [Hj|Hj].
  - rewrite !list_lookup_inserts by (rewrite ?length_inserts; lia). done.
  - rewrite !lookup_ge_None_2 by (rewrite ?length_inserts; lia). done.
Qed.

End inserts.

(** ** The bytes of the tail record *)

Lemma TAIL_bytes_key (h : byte_order) (t : TAIL) :
  length (productid t) = MAX_STRING ->
  TAIL_bytes h t !! Z.to_nat off_key = Some (key t).
Proof.
  intros Hp. unfold TAIL_bytes.
  destruct (productid t)
    as [|p0 [|p1 [|p2 [|p3 [|p4 [|p5 [|p6 [|p7 [|p8 [|p9 [|p10 [|p11 [|]]]]]]]]]]]]];
    try discriminate.
  by destruct h.
Qed.

Lemma TAIL_bytes_productid (h : byte_order) (t : TAIL) :
  length (productid t) = MAX_STRING ->
  take MAX_STRING (drop (Z.to_nat off_productid) (TAIL_bytes h t))
  = productid t.
Proof.
  intros Hp. unfold TAIL_bytes.
  destruct (productid t)
    as [|p0 [|p1 [|p2 [|p3 [|p4 [|p5 [|p6 [|p7 [|p8 [|p9 [|p10 [|p11 [|]]]]]]]]]]]]];
    try discriminate.
  done.
Qed.

Lemma length_fixed_productid (image : list byte) (tail : TAIL) (a b : byte) :
  (64 <= length image)%nat -> length (productid tail) = MAX_STRING ->
  length (productid (fixed_tail image tail a b)) = MAX_STRING.
Proof.
  intros Hlen Hp. unfold fixed_tail. cbn [productid set_productid].
  rewrite length_app, length_take, !length_drop, Hp. unfold MAX_STRING. lia.
Qed.

(** ** The buffer a run leaves *)

Section output.
Context (h : byte_order) (image : list byte) (t : TAIL) (crc : Z).
Hypothesis Hlen : (64 <= length image)%nat.
Hypothesis Hp : length (productid t) = MAX_STRING.
Hypothesis Hh : length (hw t) = MAX_VER.

Local Abbreviation out :=
  (list_inserts 4 (be_encode 4 crc) (overlaid h image t)).

Lemma length_be_encode (n : nat) (v : Z) : length (be_encode n v) = n.
Proof. apply (length_host_encode BigEndian). Qed.

Lemma length_out : length out = length image.
Proof. by rewrite length_inserts, length_overlaid. Qed.

Lemma out_frame (i : nat) :
  ~ (4 <= i < 8)%nat -> ~ (32 <= i < 64)%nat -> out !! i = image !! i.
Proof.
  intros H1 H2. unfold overlaid.
  pose proof (length_TAIL_bytes h t Hp Hh) as Ht.
  destruct (decide (i < 4)%nat).
  { by rewrite !list_lookup_inserts_lt by lia. }
  rewrite !(list_lookup_inserts_ge _ 4)
    by (rewrite ?length_be_encode; cbn [length]; lia).
  destruct (decide (i < 32)%nat).
  { by rewrite list_lookup_inserts_lt. }
  rewrite list_lookup_inserts_ge by lia. done.
Qed.

Lemma out_hcrc : take 4 (drop 4 out) = be_encode 4 crc.
Proof.
  rewrite <- (length_be_encode 4 crc) at 1.
  apply take_drop_inserts. rewrite length_be_encode, length_overlaid. lia.
Qed.

Lemma out_tail : take 32 (drop 32 out) = TAIL_bytes h t.
Proof.
  pose proof (length_TAIL_bytes h t Hp Hh) as Ht.
  apply list_eq; intros i.
  destruct (decide (i < 32)%nat) as [Hi|Hi].
  - rewrite lookup_take_lt, lookup_drop by done.
    unfold overlaid.
    rewrite !(list_lookup_inserts_ge _ 4)
      by (rewrite ?length_be_encode; cbn [length]; lia).
    rewrite list_lookup_inserts by lia. f_equal. lia.
  - rewrite lookup_take_ge by lia. symmetry. apply lookup_ge_None_2. lia.
Qed.

Lemma out_zeroed :
  list_inserts 4 [x00; x00; x00; x00] out = overlaid h image t.
Proof.
  rewrite list_inserts_twice by by rewrite length_be_encode.
  unfold overlaid. by rewrite list_inserts_twice.
Qed.
End output.

Lemma take_drop_take {A : Type} (l : list A) (n i m : nat) :
  (i + n <= m)%nat -> take n (drop i (take m l)) = take n (drop i l).
Proof.
  intros H. apply list_eq; intros j.
  destruct (decide (j < n)%nat).
  - rewrite !lookup_take_lt, !lookup_drop by done.
    by rewrite lookup_take_lt by lia.
  - by rewrite !lookup_take_ge by lia.
Qed.

Lemma lnot_uint8 (b : byte) :
  Z.lnot (Z_of_uint8 b) mod 2 ^ 8 = 255 - Z_of_uint8 b.
Proof.
  pose proof (Z_of_uint8_range b) as Hb. unfold Z.lnot.
  replace (Z.pred (- Z_of_uint8 b)) with (255 - Z_of_uint8 b + -1 * 2 ^ 8)
    by lia.
  rewrite Z_mod_plus_full. apply Z.mod_small. lia.
Qed.

(** ** The claims about fix_checksum *)

(** C1.  For a buffer that passes the size check, with [a] its byte at
    offset 0 and [b] its byte at [checksum_b_offset], both as the buffer
    is on entry, [fix_checksum] returns and the [key] of the tail record is
    [a] plus the 8-bit complement of [b], modulo 256; the buffer returned
    holds that byte at the place of [key] in the overlaid record. *)
Theorem fix_checksum_key (h : byte_order) (image : list byte) (image_len : Z)
    (tail : TAIL) (off : Z) (a b : byte) :
  TAIL_wf tail ->
  (64 <= length image)%nat ->
  checksum_b_offset h image = Some off ->
  ~ image_len < off ->
  image !! 0%nat = Some a ->
  image !! Z.to_nat off = Some b ->
  exists out tail',
    fix_checksum h image image_len tail = Ok (out, tail')
    /\ Z_of_uint8 (key tail')
       = (Z_of_uint8 a + Z.lnot (Z_of_uint8 b) mod 2 ^ 8) mod 2 ^ 8
    /\ Z_of_uint8 (key tail') = (Z_of_uint8 a + (255 - Z_of_uint8 b)) mod 2 ^ 8
    /\ out !! Z.to_nat (off_u + off_key) = Some (key tail').
Proof.
  intros [Hp Hh _ _] Hlen Hoff Hcheck Ha Hb.
  pose proof (checksum_b_offset_range _ _ _ Hoff) as Hr.
  assert (off < Z.of_nat (length image)) as Hlt
    by (apply lookup_lt_Some in Hb; lia).
  destruct (fix_checksum_ok h image image_len tail off Hp Hh Hlen Hoff)
    as (a' & b' & Ha' & Hb' & Hrun); [lia|done|].
  assert (a' = a) as -> by congruence.
  assert (b' = b) as -> by congruence.
  cbv zeta in Hrun. eexists _, _. split; [exact Hrun|].
  pose proof (length_fixed_productid image tail a b Hlen Hp) as Hp'.
  assert (Z_of_uint8 (key (fixed_tail image tail a b))
          = (Z_of_uint8 a + Z.lnot (Z_of_uint8 b) mod 2 ^ 8) mod 2 ^ 8) as Hkey.
  { cbn [fixed_tail key set_productid set_key].
    by rewrite Z_of_uint8_of_Z, Zplus_mod_idemp_r. }
  split; [done|]. split; [by rewrite Hkey, lnot_uint8|].
  change (Z.to_nat (off_u + off_key)) with (32 + 21)%nat.
  rewrite <- (TAIL_bytes_key h _ Hp').
  rewrite <- (out_tail h image _ (crc32 0 (take 64 (overlaid h image
                (fixed_tail image tail a b)))) Hlen Hp' Hh).
  by rewrite lookup_take_lt, lookup_drop by (unfold off_key; lia).
Qed.

(** C2.  When [fix_checksum] returns, bytes 4 to 7 of the buffer are the
    big-endian bytes of the CRC-32 of the first 64 bytes of that buffer
    taken with bytes 4 to 7 zeroed; these 64 bytes hold the overlaid tail
    record at offset 32. *)
Theorem fix_checksum_hcrc (h : byte_order) (image : list byte) (image_len : Z)
    (tail : TAIL) (off : Z) :
  TAIL_wf tail ->
  (64 <= length image)%nat ->
  checksum_b_offset h image = Some off ->
  ~ image_len < off ->
  off < Z.of_nat (length image) ->
  exists out tail',
    fix_checksum h image image_len tail = Ok (out, tail')
    /\ let hdr := take 64 (list_inserts 4 [x00; x00; x00; x00] out) in
       take 4 (drop 4 out) = be_encode 4 (crc32 0 hdr)
       /\ be_decode (take 4 (drop 4 out)) = crc32 0 hdr
       /\ take 32 (drop 32 hdr) = TAIL_bytes h tail'.
Proof.
  intros [Hp Hh _ _] Hlen Hoff Hcheck Hlt.
  destruct (fix_checksum_ok h image image_len tail off Hp Hh Hlen Hoff)
    as (a & b & Ha & Hb & Hrun); [lia|done|].
  cbv zeta in Hrun. eexists _, _. split; [exact Hrun|].
  set (t := fixed_tail image tail a b) in *.
  pose proof (length_fixed_productid image tail a b Hlen Hp) as Hp'.
  fold t in Hp'.
  cbv zeta. rewrite out_zeroed.
  set (crc := crc32 0 (take 64 (overlaid h image t))).
  assert (take 4 (drop 4 (list_inserts 4 (be_encode 4 crc) (overlaid h image t)))
          = be_encode 4 crc) as Hcrc by by apply out_hcrc.
  split; [done|]. split.
  - rewrite Hcrc, be_decode_encode. apply Z.mod_small.
    change (2 ^ (8 * Z.of_nat 4)) with (2 ^ 32).
    apply crc32_range. lia.
  - rewrite take_drop_take by lia.
    rewrite <- (out_tail h image t crc Hlen Hp' Hh).
    rewrite <- (out_zeroed h image t crc) at 1.
    apply list_eq; intros i.
    destruct (decide (i < 32)%nat).
    + rewrite !lookup_take_lt, !lookup_drop by done.
      by rewrite list_lookup_inserts_ge by (cbn [length]; lia).
    + by rewrite !lookup_take_ge by lia.
Qed.

(** C5.  When [fix_checksum] returns, the first 11 bytes of [productid],
    in the tail record and in the buffer returned (offset 36), are the
    first 11 bytes of the image name of the buffer on entry (offset 32);
    the 12th byte of [productid] is the one the tail record held on
    entry. *)
Theorem fix_checksum_productid (h : byte_order) (image : list byte)
    (image_len : Z) (tail : TAIL) (off : Z) :
  TAIL_wf tail ->
  (64 <= length image)%nat ->
  checksum_b_offset h image = Some off ->
  ~ image_len < off ->
  off < Z.of_nat (length image) ->
  exists out tail',
    fix_checksum h image image_len tail = Ok (out, tail')
    /\ take (MAX_STRING - 1) (productid tail')
       = take (MAX_STRING - 1) (drop (Z.to_nat off_u) image)
    /\ productid tail' !! (MAX_STRING - 1)%nat
       = productid tail !! (MAX_STRING - 1)%nat
    /\ take MAX_STRING (drop (Z.to_nat (off_u + off_productid)) out)
       = productid tail'
    /\ length (productid tail') = MAX_STRING.
Proof.
  intros [Hp Hh _ _] Hlen Hoff Hcheck Hlt.
  destruct (fix_checksum_ok h image image_len tail off Hp Hh Hlen Hoff)
    as (a & b & Ha & Hb & Hrun); [lia|done|].
  cbv zeta in Hrun. eexists _, _. split; [exact Hrun|].
  pose proof (length_fixed_productid image tail a b Hlen Hp) as Hp'.
  set (t := fixed_tail image tail a b) in *.
  assert (productid t = take 11 (drop 32 image) ++ drop 11 (productid tail))
    as Hid by done.
  assert (length (take 11 (drop 32 image)) = 11%nat) as Hname
    by (rewrite length_take, length_drop; lia).
  change (MAX_STRING - 1)%nat with 11%nat.
  change (Z.to_nat off_u) with 32%nat.
  change (Z.to_nat (off_u + off_productid)) with 36%nat.
  split; [|split; [|split]].
  - rewrite Hid. by apply take_app_length'.
  - rewrite Hid, lookup_app_r by lia.
    by rewrite Hname, Nat.sub_diag, lookup_drop.
  - rewrite <- (TAIL_bytes_productid h t Hp').
    rewrite <- (out_tail h image t
                  (crc32 0 (take 64 (overlaid h image t))) Hlen Hp' Hh).
    change (Z.to_nat off_productid) with 4%nat. unfold MAX_STRING.
    rewrite take_drop_take by lia.
    rewrite drop_drop. done.
  - done.
Qed.

(** C6.  When [fix_checksum] returns, the buffer has the length it had and
    every byte outside bytes 4 to 7 and bytes 32 to 63 is as it was: the
    header fields before and after [ih_hcrc] up to the name, and the
    payload from byte 64 on. *)
Theorem fix_checksum_frame (h : byte_order) (image : list byte)
    (image_len : Z) (tail : TAIL) (off : Z) :
  TAIL_wf tail ->
  (64 <= length image)%nat ->
  checksum_b_offset h image = Some off ->
  ~ image_len < off ->
  off < Z.of_nat (length image) ->
  exists out tail',
    fix_checksum h image image_len tail = Ok (out, tail')
    /\ length out = length image
    /\ (forall i : nat,
          ~ (4 <= i < 8)%nat -> ~ (32 <= i < 64)%nat -> out !! i = image !! i)
    /\ take 4 out = take 4 image
    /\ take 24 (drop 8 out) = take 24 (drop 8 image)
    /\ drop 64 out = drop 64 image.
Proof.
  intros [Hp Hh _ _] Hlen Hoff Hcheck Hlt.
  destruct (fix_checksum_ok h image image_len tail off Hp Hh Hlen Hoff)
    as (a & b & Ha & Hb & Hrun); [lia|done|].
  cbv zeta in Hrun. eexists _, _. split; [exact Hrun|].
  pose proof (length_fixed_productid image tail a b Hlen Hp) as Hp'.
  set (t := fixed_tail image tail a b) in *.
  set (crc := crc32 0 (take 64 (overlaid h image t))).
  pose proof (out_frame h image t crc Hlen Hp' Hh) as Hframe.
  split; [apply length_out|]. split; [exact Hframe|].
  split; [|split]; apply list_eq; intros i.
  - destruct (decide (i < 4)%nat).
    + rewrite !lookup_take_lt by done. apply Hframe; lia.
    + by rewrite !lookup_take_ge by lia.
  - destruct (decide (i < 24)%nat).
    + rewrite !lookup_take_lt, !lookup_drop by done. apply Hframe; lia.
    + by rewrite !lookup_take_ge by lia.
  - rewrite !lookup_drop. apply Hframe; lia.
Qed.

(** ** main up to the call of fix_checksum *)

Lemma main_reads (h : byte_order) (w : world) (prog : string)
    (opts : list (ascii * string)) (image : list byte) :
  reads w (getopt_loop opts) image ->
  main h w prog opts
  = let err := warnings (getopt_loop opts) in
    match fix_checksum h image (Z.of_nat (length image))
            (tail (getopt_loop opts)) with
    | Exit status msg =>
        {| how := Exited status; stderr := err +:+ msg; output := NotWritten |}
    | OutOfBounds off n =>
        {| how := Undefined off n; stderr := err; output := NotWritten |}
    | Ok (filebuf, _) =>
        match write_errno w with
        | Some e =>
            {| how := Exited 1;
               stderr :=
                 err +:+ with_errno "could not write output file (errnor = "
                           e ")." +:+ nl;
               output := ShortWrite |}
        | None =>
            {| how := Exited 0; stderr := err; output := Written filebuf |}
        end
    end.
Proof.
  intros (inf & outf & Hi & Ho & [v Hv] & Hin & Hout & Hstat & Hmalloc & Hread).
  unfold main. by rewrite Hi, Ho, Hv, Hin, Hout, Hstat, Hmalloc, Hread.
Qed.

Lemma load_uint32_Ok (h : byte_order) (image : list byte) (off v : Z) :
  load_uint32 h image off = Ok v ->
  0 <= off /\ off + 4 <= Z.of_nat (length image)
  /\ v = host_decode h (take 4 (drop (Z.to_nat off) image)).
Proof.
  unfold load_uint32, load_bytes.
  destruct (in_bounds image off 4) eqn:E; cbn [bind]; [|discriminate].
  apply in_bounds_true in E. intros [= <-]. lia.
Qed.

Lemma checksum_b_offset_Some (h : byte_order) (image : list byte) (off : Z) :
  checksum_b_offset h image = Some off ->
  (16 <= length image)%nat
  /\ load_uint32 h image off_ih_size
     = Ok (host_decode h (take 4 (drop 12 image)))
  /\ off = checksum_b_offset_of (be_decode (take 4 (drop 12 image))).
Proof.
  unfold checksum_b_offset.
  destruct (load_uint32 h image off_ih_size) as [v| |] eqn:E; try discriminate.
  intros [= <-]. apply load_uint32_Ok in E as (_ & Hlen & ->).
  unfold off_ih_size in *. change (Z.to_nat 12) with 12%nat.
  split; [lia|]. split; [done|]. f_equal.
  apply ntohl_host_decode. rewrite length_take, length_drop. lia.
Qed.

Lemma fix_checksum_too_small (h : byte_order) (image : list byte)
    (image_len : Z) (tail : TAIL) (off : Z) :
  checksum_b_offset h image = Some off ->
  image_len < off ->
  fix_checksum h image image_len tail = Exit 1 too_small.
Proof.
  intros Hoff Hlt.
  pose proof (checksum_b_offset_Some _ _ _ Hoff) as (Hlen & Hload & _).
  unfold checksum_b_offset in Hoff. unfold fix_checksum.
  rewrite Hload in *. injection Hoff as Hoff. cbn [bind]. rewrite Hoff.
  destruct (load_uint8_ok image 0) as (a & _ & ->); [lia|].
  cbn [bind]. by rewrite (proj2 (Z.ltb_lt image_len off)).
Qed.

(** ** The ways a run of fix_checksum ends *)

Lemma load_bytes_Ok (image : list byte) (off : Z) (n : nat) (bs : list byte) :
  load_bytes image off n = Ok bs ->
  0 <= off /\ off + Z.of_nat n <= Z.of_nat (length image).
Proof.
  unfold load_bytes. destruct (in_bounds image off n) eqn:E; [|discriminate].
  intros _. by apply in_bounds_true.
Qed.

Lemma store_bytes_Ok (image : list byte) (off : Z) (bs image' : list byte) :
  store_bytes image off bs = Ok image' -> length image' = length image.
Proof.
  unfold store_bytes.
  destruct (in_bounds image off (length bs)); [|discriminate].
  intros [= <-]. apply length_inserts.
Qed.

Lemma bind_Ok {A B : Type} (r : result A) (k : A -> result B) (b : B) :
  bind r k = Ok b -> exists a, r = Ok a /\ k a = Ok b.
Proof. destruct r as [a| |]; cbn; [eauto|discriminate..]. Qed.

(** A run returns only if the buffer holds the header and the byte at
    [checksum_b_offset], and the size check has passed. *)
Lemma fix_checksum_Ok (h : byte_order) (image : list byte) (image_len : Z)
    (tail : TAIL) (out : list byte) (tail' : TAIL) :
  fix_checksum h image image_len tail = Ok (out, tail') ->
  exists off,
    checksum_b_offset h image = Some off
    /\ ~ image_len < off
    /\ off < Z.of_nat (length image)
    /\ (64 <= length image)%nat.
Proof.
  unfold fix_checksum. intros Hrun.
  apply bind_Ok in Hrun as (ih_size & Hsize & Hrun).
  apply bind_Ok in Hrun as (a & Ha & Hrun).
  set (off := checksum_b_offset_of (ntohl h ih_size)) in *.
  destruct (image_len <? off) eqn:Hcheck; [discriminate|].
  apply Z.ltb_ge in Hcheck.
  apply bind_Ok in Hrun as (b & Hb & Hrun).
  apply bind_Ok in Hrun as (name & Hname & Hrun).
  apply bind_Ok in Hrun as (image1 & Hstore & Hrun).
  apply bind_Ok in Hrun as (image2 & Hzero & Hrun).
  apply bind_Ok in Hrun as (hdr & Hhdr & Hrun).
  exists off. unfold checksum_b_offset. rewrite Hsize.
  split; [done|]. split; [lia|].
  unfold load_uint8 in Hb. apply bind_Ok in Hb as (bs & Hb & _).
  apply load_bytes_Ok in Hb.
  apply load_bytes_Ok in Hhdr.
  apply store_bytes_Ok in Hzero. apply store_bytes_Ok in Hstore.
  unfold sizeof_image_header_t in Hhdr. lia.
Qed.

(** The boundary the size check misses: a buffer exactly as long as
    [checksum_b_offset] passes the check, and the read of [checksum_b] is
    one byte past its end. *)
Lemma size_check_boundary (h : byte_order) (image : list byte) (tail : TAIL) :
  checksum_b_offset h image = Some (Z.of_nat (length image)) ->
  fix_checksum h image (Z.of_nat (length image)) tail
  = OutOfBounds (Z.of_nat (length image)) 1.
Proof.
  intros Hoff.
  pose proof (checksum_b_offset_Some _ _ _ Hoff) as (Hlen & Hload & _).
  unfold checksum_b_offset in Hoff. unfold fix_checksum.
  rewrite Hload in *. injection Hoff as Hoff. cbn [bind]. rewrite Hoff.
  destruct (load_uint8_ok image 0) as (a & _ & ->); [lia|].
  cbn [bind]. rewrite Z.ltb_irrefl.
  unfold load_uint8, load_bytes.
  destruct (in_bounds image (Z.of_nat (length image)) 1) eqn:E; [|done].
  apply in_bounds_true in E. lia.
Qed.

(** ** The tail record main builds is well formed *)

Lemma assign_wf (f : version_field) (v : Z) (t : TAIL) :
  TAIL_wf t -> TAIL_wf (assign f v t).
Proof.
  intros [Hp Hh Hs He].
  destruct f; constructor; cbn [assign productid hw sn en]; try done;
    unfold uint16_of_Z; apply Z.mod_pos_bound; lia.
Qed.

Lemma sscanf_fields_wf (fields : list version_field) (s : string) (n : Z)
    (t : TAIL) :
  TAIL_wf t -> TAIL_wf (sscanf_fields fields s n t).2.
Proof.
  revert s n t.
  induction fields as [|f fields IH]; intros s n t Hwf; [done|].
  cbn [sscanf_fields].
  destruct (scan_unsigned s) as [v rest| |]; [|done|done].
  destruct fields as [|f' fields]; [by apply assign_wf|].
  destruct (scan_period rest) as [u rest'| |];
    [apply IH|..]; by apply assign_wf.
Qed.

Lemma TAIL_zero_wf : TAIL_wf TAIL_zero.
Proof. constructor; cbn; done || lia. Qed.

Lemma handle_option_wf (o : options) (g : ascii * string) :
  TAIL_wf (tail o) -> TAIL_wf (tail (handle_option o g)).
Proof.
  intros Hwf. destruct g as [opt optarg]. unfold handle_option.
  destruct (opt =? "i")%char; [done|].
  destruct (opt =? "o")%char; [done|].
  destruct (opt =? "v")%char; [|by destruct (opt =? "?")%char].
  pose proof (sscanf_fields_wf version_fields optarg 0 (tail o) Hwf) as H.
  unfold sscanf_version.
  by destruct (sscanf_fields version_fields optarg 0 (tail o)).
Qed.

Lemma getopt_loop_wf (opts : list (ascii * string)) :
  TAIL_wf (tail (getopt_loop opts)).
Proof.
  unfold getopt_loop.
  assert (TAIL_wf (tail options_init)) as H0 by apply TAIL_zero_wf.
  revert H0. generalize options_init.
  induction opts as [|g opts IH]; intros o Ho; [done|].
  cbn [foldl]. apply IH. by apply handle_option_wf.
Qed.

(** ** The claims about the size check *)

Lemma size_check_fails (h : byte_order) (image : list byte) (off : Z) :
  checksum_b_offset h image = Some off ->
  Z.of_nat (length image) < off ->
  (forall tail,
     fix_checksum h image (Z.of_nat (length image)) tail = Exit 1 too_small)
  /\ forall w prog opts,
       reads w (getopt_loop opts) image ->
       main h w prog opts
       = {| how := Exited 1;
            stderr := warnings (getopt_loop opts) +:+ too_small;
            output := NotWritten |}.
Proof.
  intros Hoff Hlt. split.
  - intros tail. by apply fix_checksum_too_small with off.
  - intros w prog opts Hreads.
    rewrite (main_reads h w prog opts image Hreads). cbv zeta.
    by rewrite (fix_checksum_too_small h image _ _ off Hoff Hlt).
Qed.

Lemma size_check_passes (h : byte_order) (image : list byte) (off : Z) :
  (64 <= length image)%nat ->
  checksum_b_offset h image = Some off ->
  off < Z.of_nat (length image) ->
  (forall tail,
     TAIL_wf tail ->
     exists out tail',
       fix_checksum h image (Z.of_nat (length image)) tail = Ok (out, tail'))
  /\ forall w prog opts,
       reads w (getopt_loop opts) image ->
       write_errno w = None ->
       exists out,
         main h w prog opts
         = {| how := Exited 0; stderr := warnings (getopt_loop opts);
              output := Written out |}.
Proof.
  intros Hlen Hoff Hlt.
  assert (forall tail, TAIL_wf tail ->
            exists out tail',
              fix_checksum h image (Z.of_nat (length image)) tail
              = Ok (out, tail')) as Hfix.
  { intros tail [Hp Hh _ _].
    destruct (fix_checksum_ok h image (Z.of_nat (length image)) tail off
                Hp Hh Hlen Hoff) as (a & b & _ & _ & Hrun); [lia|done|].
    eauto. }
  split; [done|]. intros w prog opts Hreads Hwrite.
  destruct (Hfix _ (getopt_loop_wf opts)) as (out & tail' & Hrun). exists out.
  rewrite (main_reads h w prog opts image Hreads). cbv zeta.
  by rewrite Hrun, Hwrite.
Qed.

(** C3, as the code has it.  For a buffer shorter than
    [checksum_b_offset], [fix_checksum] writes "too small uImage size" to
    stderr and exits with status 1; in [main] this happens before [write]
    is called, so nothing is written to the output file. *)
Theorem too_small_is_fatal (h : byte_order) (image : list byte) (off : Z) :
  checksum_b_offset h image = Some off ->
  Z.of_nat (length image) < off ->
  (forall tail,
     fix_checksum h image (Z.of_nat (length image)) tail = Exit 1 too_small)
  /\ forall w prog opts,
       reads w (getopt_loop opts) image ->
       main h w prog opts
       = {| how := Exited 1;
            stderr := warnings (getopt_loop opts) +:+ too_small;
            output := NotWritten |}.
Proof. apply size_check_fails. Qed.

Lemma reads_file_world (image : list byte) (ver : string) :
  reads (file_world image) (getopt_loop (demo_opts ver)) image.
Proof.
  exists "uImage"%string, "uImage.fixed"%string. unfold getopt_loop, demo_opts.
  cbn -[sscanf_version].
  destruct (sscanf_version ver TAIL_zero) as [n t].
  cbn. repeat split; eauto.
Qed.

Lemma too_small_is_fatal_witness :
  main LittleEndian (file_world (image_1024 500)) "asus_qca_fix_checksum"
    (demo_opts demo_version)
  = {| how := Exited 1; stderr := too_small; output := NotWritten |}.
Proof.
  apply (too_small_is_fatal LittleEndian (image_1024 500) 544).
  - vm_compute. reflexivity.
  - vm_compute. reflexivity.
  - apply reads_file_world.
Defined.

(** C3, as the specification words it, fails on the message: a 500-byte
    buffer that declares 1024 bytes of data is rejected, but the text on
    stderr is "too small uImage size". *)
Lemma too_small_message_counterexample :
  let image := image_1024 500 in
  let r := main LittleEndian (file_world image) "asus_qca_fix_checksum"
             (demo_opts demo_version) in
  checksum_b_offset LittleEndian image = Some 544
  /\ Z.of_nat (length image) < 544
  /\ stderr r = "too small uImage size" +:+ nl
  /\ ~ fails_as_specified r.
Proof.
  cbv zeta. split; [by vm_compute|]. split; [by vm_compute|].
  split; [by vm_compute|].
  intros [Hmsg _]. vm_compute in Hmsg. discriminate.
Qed.

Example reported_uImage :
  reported "too small uImage size" too_small = true
  /\ reported "too small image size" too_small = false.
Proof. split; reflexivity. Qed.

(** ** The offset of the second checksum byte *)

Lemma le_decode_range (bs : list byte) :
  0 <= le_decode bs < 2 ^ (8 * Z.of_nat (length bs)).
Proof.
  induction bs as [|b bs IH]; cbn [le_decode length].
  - change (2 ^ (8 * Z.of_nat 0)) with 1. lia.
  - pose proof (Z_of_uint8_range b) as Hb.
    replace (8 * Z.of_nat (S (length bs)))
      with (8 + 8 * Z.of_nat (length bs)) by lia.
    rewrite Z.pow_add_r by lia. nia.
Qed.

Lemma be_decode_range (bs : list byte) :
  0 <= be_decode bs < 2 ^ (8 * Z.of_nat (length bs)).
Proof.
  unfold be_decode. rewrite <- (length_reverse bs). apply le_decode_range.
Qed.

Lemma checksum_b_offset_of_small (ih_size : Z) :
  0 <= ih_size < 2 ^ 32 ->
  checksum_b_offset_of ih_size = (ih_size + 64) / 2.
Proof.
  intros Hr.
  unfold checksum_b_offset_of, uint32_of_Z, size_t_of_Z, sizeof_image_header_t.
  rewrite (Z.mod_small (ih_size + 64)) by lia.
  rewrite Z.shiftr_div_pow2 by lia. change (2 ^ 1) with 2.
  apply Z.mod_small. split; [apply Z.div_pos; lia|].
  apply Z.div_lt_upper_bound; lia.
Qed.

Lemma checksum_b_offset_eq (h : byte_order) (image : list byte) :
  (16 <= length image)%nat ->
  checksum_b_offset h image
  = Some ((be_decode (take 4 (drop 12 image)) + 64) / 2).
Proof.
  intros Hlen. unfold checksum_b_offset, load_uint32, off_ih_size.
  rewrite load_bytes_ok by lia. cbn [bind]. change (Z.to_nat 12) with 12%nat.
  assert (length (take 4 (drop 12 image)) = 4%nat) as H4
    by (rewrite length_take, length_drop; lia).
  rewrite ntohl_host_decode by done. f_equal.
  apply checksum_b_offset_of_small.
  pose proof (be_decode_range (take 4 (drop 12 image))) as Hr.
  rewrite H4 in Hr. exact Hr.
Qed.

(** C4, as the code has it.  [checksum_b_offset] is the big-endian value of
    bytes 12 to 15 of the buffer plus 64, halved.  For a data size of 1024
    it is 544: a buffer of 2000 bytes passes the size check, and so does a
    buffer of 1000 bytes, [fix_checksum] returns and [main] writes the
    buffer; a buffer shorter than 544 bytes makes [fix_checksum] exit with
    status 1, and [main] has then written nothing. *)
Theorem checksum_b_offset_spec (h : byte_order) (image : list byte) :
  (16 <= length image)%nat ->
  let data_size := be_decode (take 4 (drop 12 image)) in
  checksum_b_offset h image = Some ((data_size + 64) / 2)
  /\ (data_size = 1024 ->
      checksum_b_offset h image = Some 544
      /\ (length image = 2000%nat \/ length image = 1000%nat ->
          ~ Z.of_nat (length image) < 544
          /\ (forall tail, TAIL_wf tail ->
                exists out tail',
                  fix_checksum h image (Z.of_nat (length image)) tail
                  = Ok (out, tail'))
          /\ forall w prog opts,
               reads w (getopt_loop opts) image ->
               write_errno w = None ->
               exists out,
                 how (main h w prog opts) = Exited 0
                 /\ output (main h w prog opts) = Written out)
      /\ (Z.of_nat (length image) < 544 ->
          (forall tail,
             fix_checksum h image (Z.of_nat (length image)) tail
             = Exit 1 too_small)
          /\ forall w prog opts,
               reads w (getopt_loop opts) image ->
               how (main h w prog opts) = Exited 1
               /\ output (main h w prog opts) = NotWritten)).
Proof.
  intros Hlen data_size.
  pose proof (checksum_b_offset_eq h image Hlen) as Hoff.
  fold data_size in Hoff. split; [done|]. intros Hsize.
  rewrite Hsize in Hoff. change ((1024 + 64) / 2) with 544 in Hoff.
  split; [done|]. split.
  - intros Hn. split; [lia|].
    destruct (size_check_passes h image 544) as [Hfix Hmain]; [lia|done|lia|].
    split; [done|]. intros w prog opts Hreads Hwrite.
    destruct (Hmain w prog opts Hreads Hwrite) as [out Hout].
    exists out. by rewrite Hout.
  - intros Hshort.
    destruct (size_check_fails h image 544 Hoff Hshort) as [Hfix Hmain].
    split; [done|]. intros w prog opts Hreads.
    by rewrite (Hmain w prog opts Hreads).
Qed.

Lemma checksum_b_offset_spec_witness :
  checksum_b_offset LittleEndian (image_1024 2000) = Some 544
  /\ exists out tail',
       fix_checksum LittleEndian (image_1024 2000) 2000 demo_tail
       = Ok (out, tail').
Proof.
  destruct (checksum_b_offset_spec LittleEndian (image_1024 2000)) as [_ H];
    [vm_compute; lia|].
  destruct H as (Hoff & Hpass & _); [by vm_compute|].
  split; [exact Hoff|].
  destruct Hpass as (_ & Hfix & _); [left; by vm_compute|].
  apply (Hfix demo_tail). apply sscanf_fields_wf, TAIL_zero_wf.
Defined.

(** C4, as the specification words it, fails on the 1000-byte buffer: with
    a data size of 1024 the offset is 544, so 1000 bytes pass the size
    check, the run exits with status 0 and the buffer is written. *)
Lemma buffer_1000_counterexample :
  let image := image_1024 1000 in
  let r := main LittleEndian (file_world image) "asus_qca_fix_checksum"
             (demo_opts demo_version) in
  length image = 1000%nat
  /\ be_decode (take 4 (drop 12 image)) = 1024
  /\ checksum_b_offset LittleEndian image = Some 544
  /\ how r = Exited 0
  /\ stderr r = ""%string
  /\ (exists out, output r = Written out /\ length out = 1000%nat)
  /\ ~ (exists status, how r = Exited status /\ status <> 0)
  /\ output r <> NotWritten.
Proof.
  cbv zeta. repeat (split; [by vm_compute|]).
  split; [eexists; split; [vm_compute; reflexivity|by vm_compute]|].
  split.
  - intros (status & Hhow & Hstatus). vm_compute in Hhow.
    injection Hhow as <-. done.
  - intros Hout. vm_compute in Hout. discriminate.
Qed.

(** ** The version string *)

Lemma string_app_cons (a : ascii) (s r : string) :
  String a s +:+ r = String a (s +:+ r).
Proof. reflexivity. Qed.

Lemma string_app_assoc (s1 s2 s3 : string) :
  (s1 +:+ s2) +:+ s3 = s1 +:+ (s2 +:+ s3).
Proof.
  induction s1 as [|a s1 IH]; [done|].
  rewrite !string_app_cons. f_equal. exact IH.
Qed.

Lemma isdigit_not_space (a : ascii) : isdigit a = true -> isspace a = false.
Proof.
  unfold isdigit, isspace.
  rewrite andb_true_iff, !N.leb_le. intros [H1 H2].
  apply orb_false_iff. split; [apply N.eqb_neq; lia|].
  apply andb_false_iff. right. apply N.leb_gt. lia.
Qed.

Lemma isdigit_not_mark (a : ascii) :
  isdigit a = true ->
  (a =? "-")%char = false /\ (a =? "+")%char = false
  /\ (a =? ".")%char = false.
Proof.
  intros Hd.
  repeat split;
    match goal with |- (a =? ?c)%char = false =>
      destruct (Ascii.eqb_spec a c) as [->|]; [discriminate|done] end.
Qed.

Lemma read_digits_app (c rest : string) :
  forallb isdigit (list_ascii_of_string c) = true ->
  ends_number rest = true ->
  read_digits (c +:+ rest) = (digit_value <$> list_ascii_of_string c, rest).
Proof.
  intros Hc Hrest. induction c as [|a c IH].
  - change ("" +:+ rest) with rest.
    destruct rest as [|b rest]; [done|].
    cbn in Hrest. apply negb_true_iff in Hrest.
    cbn [read_digits]. by rewrite Hrest.
  - cbn in Hc. apply andb_true_iff in Hc as [Ha Hc].
    rewrite string_app_cons. cbn [read_digits].
    by rewrite Ha, IH.
Qed.

Lemma scan_unsigned_number (c rest : string) :
  all_digits c = true ->
  ends_number rest = true ->
  scan_unsigned (c +:+ rest) = Converted (strtoul false (number c)) rest.
Proof.
  intros Hc Hrest. destruct c as [|a c]; [discriminate|].
  unfold all_digits in Hc.
  pose proof Hc as Hall. cbn in Hc. apply andb_true_iff in Hc as [Ha Hc].
  unfold scan_unsigned. rewrite string_app_cons. cbn [skip_space].
  rewrite (isdigit_not_space a Ha).
  destruct (isdigit_not_mark a Ha) as (-> & -> & _).
  rewrite <- string_app_cons, read_digits_app by done.
  unfold number. by cbn.
Qed.

Lemma sscanf_fields_assigns (fields : list version_field) (s : string) (n : Z)
    (t : TAIL) :
  0 <= n ->
  exists vs : list Z,
    (length vs <= length fields)%nat
    /\ (sscanf_fields fields s n t).2 = assign_all (zip fields vs) t
    /\ ((sscanf_fields fields s n t).1 = n + Z.of_nat (length vs)
        \/ (n = 0 /\ vs = [] /\ (sscanf_fields fields s n t).1 = EOF)).
Proof.
  revert s n t.
  induction fields as [|f fields IH]; intros s n t Hn.
  { exists []. cbn. split; [lia|]. split; [done|]. left. lia. }
  cbn [sscanf_fields].
  destruct (scan_unsigned s) as [v rest| |].
  - destruct fields as [|f' fields'].
    { exists [v]. cbn. split; [lia|]. split; [done|]. left. lia. }
    destruct (scan_period rest) as [u rest'| |].
    + destruct (IH rest' (n + 1) (assign f v t)) as (vs & Hl & Ht & Hc);
        [lia|].
      exists (v :: vs). cbn [length zip zip_with assign_all foldl fst snd].
      split; [cbn [length] in Hl; lia|]. split; [exact Ht|].
      left. destruct Hc as [Hc|[Hc _]]; lia.
    + exists [v]. cbn. split; [lia|]. split; [done|]. left. lia.
    + exists [v]. cbn. split; [lia|]. split; [done|]. left. lia.
  - exists []. cbn. split; [lia|]. split; [done|]. left. lia.
  - exists []. cbn [length zip zip_with assign_all foldl fst snd].
    split; [lia|]. split; [done|].
    destruct (n =? 0) eqn:E; [right|left; lia].
    apply Z.eqb_eq in E. done.
Qed.

Lemma string_app_nil_r (s : string) : s +:+ "" = s.
Proof.
  induction s as [|a s IH]; [done|].
  rewrite string_app_cons. by rewrite IH.
Qed.

(** An option other than [-v] leaves the tail record alone and adds to
    stderr what it would add to an empty one. *)
Lemma handle_option_not_v (o : options) (g : ascii * string) :
  not_v g ->
  tail (handle_option o g) = tail o
  /\ warnings (handle_option o g)
     = warnings o +:+ warnings (handle_option options_init g).
Proof.
  destruct g as [opt arg]. unfold not_v, handle_option. cbn [fst]. intros Hv.
  destruct (opt =? "i")%char; [by rewrite string_app_nil_r|].
  destruct (opt =? "o")%char; [by rewrite string_app_nil_r|].
  destruct (Ascii.eqb_spec opt "v") as [->|_]; [done|].
  destruct (opt =? "?")%char; [done|by rewrite string_app_nil_r].
Qed.

Lemma getopt_other_options (opts : list (ascii * string)) (o : options) :
  Forall not_v opts ->
  tail (foldl handle_option o opts) = tail o
  /\ warnings (foldl handle_option o opts)
     = warnings o +:+ warnings (getopt_loop opts).
Proof.
  unfold getopt_loop. revert o.
  induction opts as [|g opts IH]; intros o Hv.
  { cbn. by rewrite string_app_nil_r. }
  apply Forall_cons in Hv as [Hg Hv]. cbn [foldl].
  destruct (IH (handle_option o g) Hv) as [-> ->].
  destruct (IH (handle_option options_init g) Hv) as [_ ->].
  destruct (handle_option_not_v o g Hg) as [-> ->].
  split; [done|]. by rewrite string_app_assoc.
Qed.

Lemma handle_option_v (o : options) (ver : string) :
  handle_option o ("v"%char, ver)
  = {| infname := infname o; outfname := outfname o; version := Some ver;
       tail := (sscanf_version ver (tail o)).2;
       warnings :=
         if (sscanf_version ver (tail o)).1 =? 6 then warnings o
         else warnings o +:+ bad_version ver |}.
Proof.
  unfold handle_option. cbn [Ascii.eqb Bool.eqb].
  by destruct (sscanf_version ver (tail o)).
Qed.

Lemma getopt_one_version (before after : list (ascii * string))
    (ver : string) :
  Forall not_v before -> Forall not_v after ->
  let o := getopt_loop (before ++ ("v"%char, ver) :: after) in
  tail o = (sscanf_version ver TAIL_zero).2
  /\ warnings o
     = warnings (getopt_loop before)
       +:+ (if (sscanf_version ver TAIL_zero).1 =? 6 then ""%string
            else bad_version ver)
       +:+ warnings (getopt_loop after).
Proof.
  intros Hb Ha. cbv zeta. unfold getopt_loop at 1 2.
  rewrite foldl_app. cbn [foldl].
  destruct (getopt_other_options after
              (handle_option (foldl handle_option options_init before)
                 ("v"%char, ver)) Ha) as [-> ->].
  destruct (getopt_other_options before options_init Hb) as [Ht Hw].
  rewrite handle_option_v. cbn [tail warnings]. rewrite Ht.
  fold (getopt_loop before). cbn [tail options_init].
  split; [done|].
  destruct ((sscanf_version ver TAIL_zero).1 =? 6);
    by rewrite ?string_app_assoc.
Qed.

(** The values [sscanf] converts are the leading numbers of the string,
    stored one field after the other. *)
Lemma sscanf_fields_leading (fields : list version_field) (s : string) (n : Z)
    (t : TAIL) :
  0 <= n ->
  let vs := leading_numbers (length fields) s in
  (length vs <= length fields)%nat
  /\ (sscanf_fields fields s n t).2 = assign_all (zip fields vs) t
  /\ ((sscanf_fields fields s n t).1 = n + Z.of_nat (length vs)
      \/ (n = 0 /\ vs = [] /\ (sscanf_fields fields s n t).1 = EOF)).
Proof.
  cbv zeta. revert s n t.
  induction fields as [|f fields IH]; intros s n t Hn.
  { cbn. split; [lia|]. split; [done|]. left. lia. }
  cbn [sscanf_fields leading_numbers length].
  destruct (scan_unsigned s) as [v rest| |].
  - destruct fields as [|f' fields'].
    { cbn. split; [lia|]. split; [done|]. left. lia. }
    cbn [length]. destruct (scan_period rest) as [u rest'| |].
    + destruct (IH rest' (n + 1) (assign f v t)) as (Hl & Ht & Hc); [lia|].
      cbn [length] in Hl, Ht, Hc.
      cbn [length zip zip_with assign_all foldl fst snd].
      split; [lia|]. split; [exact Ht|].
      left. destruct Hc as [Hc|[Hc _]]; lia.
    + cbn. split; [lia|]. split; [done|]. left. lia.
    + cbn. split; [lia|]. split; [done|]. left. lia.
  - cbn. split; [lia|]. split; [done|]. left. lia.
  - cbn [length zip zip_with assign_all foldl fst snd].
    split; [lia|]. split; [done|].
    destruct (n =? 0) eqn:E; [right|left; lia].
    apply Z.eqb_eq in E. done.
Qed.

Lemma leading_numbers_components (cs : list string) :
  forall (k : nat) (rest : string),
    cs <> [] ->
    (length cs <= k)%nat ->
    Forall (fun c => all_digits c = true) cs ->
    ends_number rest = true ->
    ((length cs < k)%nat -> ends_fields rest = true) ->
    leading_numbers k (String.concat "." cs +:+ rest)
    = (fun c => strtoul false (number c)) <$> cs.
Proof.
  induction cs as [|c cs IH]; intros k rest Hne Hlen Hcs Hrest Hstop; [done|].
  apply Forall_cons in Hcs as [Hc Hcs].
  destruct k as [|k]; [cbn in Hlen; lia|].
  destruct cs as [|c' cs].
  - cbn [String.concat leading_numbers]. rewrite scan_unsigned_number by done.
    cbn [fmap list_fmap]. f_equal.
    destruct k as [|k]; [done|].
    assert (ends_fields rest = true) as Hends by (apply Hstop; cbn; lia).
    destruct rest as [|b rest]; [done|].
    cbn in Hends. apply andb_true_iff in Hends as [_ Hb].
    apply negb_true_iff in Hb. cbn [scan_period]. by rewrite Hb.
  - change (String.concat "." (c :: c' :: cs))
      with (c +:+ "." +:+ String.concat "." (c' :: cs)).
    rewrite !string_app_assoc. cbn [leading_numbers].
    rewrite scan_unsigned_number by done.
    destruct k as [|k]; [cbn in Hlen; lia|].
    rewrite string_app_cons. change ("" +:+ ?x) with x.
    cbn [scan_period Ascii.eqb Bool.eqb].
    rewrite IH; [done|done|cbn in *; lia|done|done|].
    cbn in *. intros. apply Hstop. lia.
Qed.

(** C7, as the code has it.  When [sscanf] does not convert six fields of
    the version string, the numbers it did convert (the leading numbers of
    the string, fewer than six) are in the tail record, in order, each
    narrowed to the width of its field, and every other member of the
    record is zero; the line "Version ... doesn't match suppored 6-digits
    format" is written to stderr and the run goes on: with an image that
    [fix_checksum] accepts it ends with status 0, the patched buffer
    written. *)
Theorem bad_version_not_fatal (ver : string) (n : Z) (t : TAIL) :
  sscanf_version ver TAIL_zero = (n, t) ->
  n <> 6 ->
  let vs := leading_numbers 6 ver in
  let warning :=
    "Version " +:+ ver +:+ " doesn't match suppored 6-digits format"
    +:+ String "010" "" in
  ((length vs < 6)%nat
   /\ Z.max n 0 = Z.of_nat (length vs)
   /\ (forall i f,
         version_fields !! i = Some f ->
         field_value f t
         = match vs !! i with
           | Some v => v mod 2 ^ field_bits f
           | None => 0
           end)
   /\ productid t = replicate MAX_STRING x00
   /\ pkey t = x00 /\ key t = x00
   /\ hw t = replicate MAX_VER {| major := x00; minor := x00 |}
   /\ (forall cs rest,
         ver = String.concat "." cs +:+ rest ->
         cs <> [] -> (length cs < 6)%nat ->
         Forall (fun c => all_digits c = true) cs ->
         ends_fields rest = true ->
         vs = (fun c => strtoul false (number c)) <$> cs))
  /\ forall before after,
       Forall not_v before -> Forall not_v after ->
       let opts := before ++ ("v"%char, ver) :: after in
       let err :=
         warnings (getopt_loop before) +:+ warning
         +:+ warnings (getopt_loop after) in
       tail (getopt_loop opts) = t
       /\ warnings (getopt_loop opts) = err
       /\ forall h w prog image off,
            reads w (getopt_loop opts) image ->
            write_errno w = None ->
            (64 <= length image)%nat ->
            checksum_b_offset h image = Some off ->
            off < Z.of_nat (length image) ->
            exists out tail',
              fix_checksum h image (Z.of_nat (length image)) t
              = Ok (out, tail')
              /\ main h w prog opts
                 = {| how := Exited 0; stderr := err; output := Written out |}.
Proof.
  intros Hscan Hn vs warning. split.
  - destruct (sscanf_fields_leading version_fields ver 0 TAIL_zero)
      as (Hl & Ht & Hc); [lia|].
    fold (sscanf_version ver TAIL_zero) in Ht, Hc. rewrite Hscan in Ht, Hc.
    change (leading_numbers (length version_fields) ver) with vs in *.
    cbn [fst snd] in Ht, Hc.
    assert (Z.max n 0 = Z.of_nat (length vs)) as Hmax.
    { destruct Hc as [->|(_ & -> & ->)]; [lia|done]. }
    assert (length vs < 6)%nat as Hlt.
    { destruct Hc as [Hc|(_ & -> & _)]; [|cbn; lia].
      cbn [length version_fields] in Hl. lia. }
    split; [done|]. split; [done|].
    split; [|split; [|split; [|split; [|split]]]].
    + clear Hc Hl Hscan Hn Hmax. subst t.
      destruct vs as [|v0 [|v1 [|v2 [|v3 [|v4 [|v5 vs']]]]]];
        [..|cbn [length] in Hlt; lia];
        intros [|[|[|[|[|[|i]]]]]] f; cbn; intros; simplify_eq; cbn;
        try done; apply Z_of_uint8_of_Z.
    + subst t. by destruct vs as [|v0 [|v1 [|v2 [|v3 [|v4 [|v5 vs']]]]]].
    + subst t. by destruct vs as [|v0 [|v1 [|v2 [|v3 [|v4 [|v5 vs']]]]]].
    + subst t. by destruct vs as [|v0 [|v1 [|v2 [|v3 [|v4 [|v5 vs']]]]]].
    + subst t. by destruct vs as [|v0 [|v1 [|v2 [|v3 [|v4 [|v5 vs']]]]]].
    + intros cs rest -> Hne Hk Hcs Hends. unfold vs.
      apply leading_numbers_components; try done; [lia|].
      destruct rest as [|b rest]; [done|].
      cbn in Hends |- *. by apply andb_true_iff in Hends as [-> _].
  - intros before after Hb Ha opts err.
    destruct (getopt_one_version before after ver Hb Ha) as [Ht Hw].
    fold opts in Ht, Hw. rewrite Hscan in Ht, Hw. cbn [fst snd] in Ht, Hw.
    rewrite (proj2 (Z.eqb_neq n 6)) in Hw by done.
    split; [done|]. split; [done|].
    intros h w prog image off Hreads Hwrite Hlen Hoff Hlt.
    pose proof (getopt_loop_wf opts) as [Hp Hh _ _]. rewrite Ht in Hp, Hh.
    destruct (fix_checksum_ok h image (Z.of_nat (length image)) t off
                Hp Hh Hlen Hoff) as (a & b & _ & _ & Hrun); [lia|done|].
    cbv zeta in Hrun. eexists _, _. split; [exact Hrun|].
    rewrite (main_reads h w prog opts image Hreads). cbv zeta.
    by rewrite Ht, Hw, Hrun, Hwrite.
Qed.

Lemma bad_version_not_fatal_witness :
  exists out,
    main LittleEndian (file_world demo_image) "asus_qca_fix_checksum"
      (demo_opts "3.0.0.4")
    = {| how := Exited 0;
         stderr :=
           "Version 3.0.0.4 doesn't match suppored 6-digits format"
           +:+ String "010" "";
         output := Written out |}.
Proof.
  destruct (bad_version_not_fatal "3.0.0.4" 4
              (sscanf_version "3.0.0.4" TAIL_zero).2) as [_ H];
    [by vm_compute|lia|].
  destruct (H [("i"%char, "uImage"%string); ("o"%char, "uImage.fixed"%string)]
              []) as (_ & _ & Hrun).
  { repeat constructor; discriminate. }
  { constructor. }
  destruct (Hrun LittleEndian (file_world demo_image)
              "asus_qca_fix_checksum"%string demo_image 64)
    as (out & tail' & _ & Hmain).
  - apply (reads_file_world demo_image "3.0.0.4").
  - reflexivity.
  - vm_compute. lia.
  - by vm_compute.
  - by vm_compute.
  - exists out. exact Hmain.
Defined.

(** C7, as the specification words it, fails on a string with more than
    six fields: "1.2.3.4.5.6.7" is not six dotted numbers, yet [sscanf]
    converts six fields, no warning is written and the run ends with
    status 0. *)
Lemma seven_fields_counterexample :
  let ver := "1.2.3.4.5.6.7"%string in
  let r := main LittleEndian (file_world demo_image) "asus_qca_fix_checksum"
             (demo_opts ver) in
  six_dotted_fields ver = false
  /\ (sscanf_version ver TAIL_zero).1 = 6
  /\ how r = Exited 0
  /\ stderr r = ""%string
  /\ reported "Version" (stderr r) = false
  /\ exists out, output r = Written out.
Proof.
  cbv zeta. repeat (split; [by vm_compute|]).
  eexists. vm_compute. reflexivity.
Qed.

Example six_dotted_fields_demo :
  six_dotted_fields demo_version = true
  /\ six_dotted_fields "3.0.0.4" = false
  /\ six_dotted_fields "3.0.0.4.382.x" = false
  /\ six_dotted_fields "" = false.
Proof. by vm_compute. Qed.

Example leading_numbers_demo :
  leading_numbers 6 "3.0.0.4" = [3; 0; 0; 4]
  /\ leading_numbers 6 " 7.-1.x" = [7; 2 ^ 64 - 1]
  /\ leading_numbers 6 "1.2.3.4.5.6.7" = [1; 2; 3; 4; 5; 6].
Proof. by vm_compute. Qed.

Example version_four_fields :
  sscanf_version "3.0.0.4" TAIL_zero
  = (4, {| kernel := {| major := x03; minor := x00 |};
           fs := {| major := x00; minor := x04 |};
           productid := replicate 12 x00; sn := 0; en := 0;
           pkey := x00; key := x00;
           hw := replicate 5 {| major := x00; minor := x00 |} |}).
Proof. reflexivity. Qed.

Example version_six_fields :
  sscanf_version demo_version TAIL_zero
  = (6, {| kernel := {| major := x03; minor := x00 |};
           fs := {| major := x00; minor := x04 |};
           productid := replicate 12 x00; sn := 382; en := 52482;
           pkey := x00; key := x00;
           hw := replicate 5 {| major := x00; minor := x00 |} |}).
Proof. reflexivity. Qed.

Example version_empty : (sscanf_version "" TAIL_zero).1 = EOF.
Proof. reflexivity. Qed.

Example version_not_a_number : sscanf_version "v3.0" TAIL_zero = (0, TAIL_zero).
Proof. reflexivity. Qed.

(** ** Two runs, and a run on the output of a run *)

Lemma drop_last_of_12 (l : list byte) (x : byte) :
  length l = MAX_STRING -> l !! 11%nat = Some x -> drop 11 l = [x].
Proof.
  intros Hl Hx.
  destruct l
    as [|p0 [|p1 [|p2 [|p3 [|p4 [|p5 [|p6 [|p7 [|p8 [|p9 [|p10 [|p11 [|]]]]]]]]]]]]];
    try discriminate.
  cbn in Hx. by injection Hx as ->.
Qed.

Lemma fixed_tail_same_members (image : list byte) (tail1 tail2 : TAIL)
    (a b : byte) :
  TAIL_wf tail1 -> TAIL_wf tail2 -> same_members tail1 tail2 ->
  fixed_tail image tail1 a b = fixed_tail image tail2 a b.
Proof.
  intros [Hp1 _ _ _] [Hp2 _ _ _] (Hk & Hf & Hs & He & Hpk & Hh & Hlast).
  destruct (lookup_lt_is_Some_2 (productid tail1) 11) as [x Hx];
    [rewrite Hp1; unfold MAX_STRING; lia|].
  unfold fixed_tail, set_productid, set_key.
  cbn [kernel fs productid sn en pkey key hw].
  rewrite Hk, Hf, Hs, He, Hpk, Hh.
  rewrite (drop_last_of_12 _ x Hp1 Hx).
  rewrite (drop_last_of_12 _ x Hp2) by by rewrite <- Hlast.
  done.
Qed.

(** C8.  For an image [fix_checksum] accepts and a version string there is
    one output: every run of the program on an input file with these
    contents and with this version string ends with status 0 and writes
    these bytes, whatever the names of the files and of the program, the
    order of the options and the other options given; and [fix_checksum]
    returns this buffer for every tail record that agrees with the parsed
    one on the members it reads. *)
Theorem patcher_deterministic (h : byte_order) (image : list byte)
    (ver : string) (off : Z) :
  (64 <= length image)%nat ->
  checksum_b_offset h image = Some off ->
  off < Z.of_nat (length image) ->
  exists out,
    (forall tail,
       TAIL_wf tail ->
       same_members tail (sscanf_version ver TAIL_zero).2 ->
       exists tail',
         fix_checksum h image (Z.of_nat (length image)) tail = Ok (out, tail'))
    /\ forall w prog before after,
         Forall not_v before -> Forall not_v after ->
         let opts := before ++ ("v"%char, ver) :: after in
         reads w (getopt_loop opts) image ->
         write_errno w = None ->
         how (main h w prog opts) = Exited 0
         /\ output (main h w prog opts) = Written out.
Proof.
  intros Hlen Hoff Hlt.
  set (t := (sscanf_version ver TAIL_zero).2).
  assert (TAIL_wf t) as Hwf by apply sscanf_fields_wf, TAIL_zero_wf.
  pose proof Hwf as [Hp Hh _ _].
  destruct (fix_checksum_ok h image (Z.of_nat (length image)) t off
              Hp Hh Hlen Hoff) as (a & b & Ha & Hb & Hrun); [lia|done|].
  cbv zeta in Hrun. eexists. split.
  - intros tail Htail Hsame. pose proof Htail as [Hp' Hh' _ _].
    destruct (fix_checksum_ok h image (Z.of_nat (length image)) tail off
                Hp' Hh' Hlen Hoff) as (a' & b' & Ha' & Hb' & Hrun');
      [lia|done|].
    assert (a' = a) as -> by congruence.
    assert (b' = b) as -> by congruence.
    cbv zeta in Hrun'.
    rewrite (fixed_tail_same_members image tail t a b Htail Hwf Hsame) in Hrun'.
    eauto.
  - intros w prog before after Hb' Ha' opts Hreads Hwrite.
    destruct (getopt_one_version before after ver Hb' Ha') as [Ht _].
    fold opts in Ht. fold t in Ht.
    rewrite (main_reads h w prog opts image Hreads). cbv zeta.
    by rewrite Ht, Hrun, Hwrite.
Qed.

Lemma patcher_deterministic_witness :
  exists out,
    output (main LittleEndian (file_world demo_image) "asus_qca_fix_checksum"
              (demo_opts demo_version))
    = Written out
    /\ output (main LittleEndian (file_world demo_image) "fix"
                 (getopt "fix" ["-x"; "-v"; demo_version; "-ob"; "-i"; "a"]%string))
       = Written out.
Proof.
  destruct (patcher_deterministic LittleEndian demo_image demo_version 64)
    as (out & _ & Hruns); [vm_compute; lia|by vm_compute|by vm_compute|].
  exists out. split.
  - apply (Hruns (file_world demo_image) "asus_qca_fix_checksum"%string
             [("i"%char, "uImage"%string); ("o"%char, "uImage.fixed"%string)]
             []).
    + repeat constructor; discriminate.
    + constructor.
    + apply (reads_file_world demo_image demo_version).
    + reflexivity.
  - apply (Hruns (file_world demo_image) "fix"%string
             [("?"%char, invalid_option "fix" "x")]
             [("o"%char, "b"%string); ("i"%char, "a"%string)]).
    + repeat constructor; discriminate.
    + repeat constructor; discriminate.
    + exists "a"%string, "b"%string. vm_compute. repeat split; eauto.
    + reflexivity.
Defined.

(** What [getopt] makes of a command line, and what then stands on stderr:
    an unknown option and an option without its argument are reported by
    [getopt] itself. *)
Example getopt_demo :
  getopt "fix" ["-x"; "-v"; "1.2"; "file"; "-ob"; "-i"]%string
  = [("?"%char, invalid_option "fix" "x"); ("v"%char, "1.2"%string);
     ("o"%char, "b"%string); ("?"%char, requires_argument "fix" "i")]
  /\ stderr (main LittleEndian (file_world demo_image) "fix"
               (getopt "fix" ["-x"; "-i"; "a"; "-o"; "b"; "-v"; demo_version]%string))
     = "fix: invalid option -- 'x'" +:+ String "010" "".
Proof. by vm_compute. Qed.

(** C9.  Patching the output of the patcher changes it: there is an image
    and a version string for which the second pass does not give back the
    output of the first. *)
Theorem patch_not_idempotent (h : byte_order) :
  exists image ver out1 out2,
    patch h ver image = Written out1
    /\ patch h ver out1 = Written out2
    /\ out1 <> out2.
Proof.
  exists demo_image, demo_version.
  destruct h; eexists _, _;
    (split; [vm_compute; reflexivity|]);
    (split; [vm_compute; reflexivity|]);
    intros H; apply (f_equal (fun l : list byte => l !! 36%nat)) in H;
    vm_compute in H; discriminate.
Qed.

(** ** The size check against the reads *)

(** C10 fails on the code.  A 64-byte buffer that declares 64 bytes of
    data has [checksum_b_offset] 64: the size check [image_len <
    checksum_b_offset] lets it through, and the read of [checksum_b] at
    index 64 is one byte past the end of the buffer. *)
Theorem size_check_off_by_one (h : byte_order) (tail : TAIL) :
  length demo_header = 64%nat
  /\ checksum_b_offset h demo_header = Some 64
  /\ (Z.of_nat (length demo_header) <? 64) = false
  /\ demo_header !! 64%nat = None
  /\ fix_checksum h demo_header 64 tail = OutOfBounds 64 1
  /\ how (main h (file_world demo_header) "asus_qca_fix_checksum"
            (demo_opts demo_version))
     = Undefined 64 1.
Proof.
  destruct h; repeat split; vm_compute; reflexivity.
Qed.

(** ** The theorems at a concrete image *)

Lemma demo_tail_wf : TAIL_wf demo_tail.
Proof. apply sscanf_fields_wf, TAIL_zero_wf. Qed.

Lemma fix_checksum_key_witness :
  exists out tail',
    fix_checksum LittleEndian demo_image 128 demo_tail = Ok (out, tail')
    /\ Z_of_uint8 (key tail') = 124
    /\ out !! 53%nat = Some (key tail').
Proof.
  destruct (fix_checksum_key LittleEndian demo_image 128 demo_tail 64 x27 xaa)
    as (out & tail' & Hrun & _ & Hkey & Hout).
  - apply demo_tail_wf.
  - vm_compute. lia.
  - by vm_compute.
  - lia.
  - reflexivity.
  - reflexivity.
  - exists out, tail'. split; [exact Hrun|]. split; [|exact Hout].
    rewrite Hkey. reflexivity.
Defined.

Lemma fix_checksum_hcrc_witness :
  exists out tail',
    fix_checksum LittleEndian demo_image 128 demo_tail = Ok (out, tail')
    /\ be_decode (take 4 (drop 4 out))
       = crc32 0 (take 64 (list_inserts 4 [x00; x00; x00; x00] out)).
Proof.
  destruct (fix_checksum_hcrc LittleEndian demo_image 128 demo_tail 64)
    as (out & tail' & Hrun & _ & Hcrc & _).
  - apply demo_tail_wf.
  - vm_compute. lia.
  - by vm_compute.
  - lia.
  - vm_compute. reflexivity.
  - exists out, tail'. split; [exact Hrun|exact Hcrc].
Defined.

Lemma fix_checksum_productid_witness :
  exists out tail',
    fix_checksum LittleEndian demo_image 128 demo_tail = Ok (out, tail')
    /\ take 11 (productid tail') = take 11 (bytes_of_string "OpenWrt" ++ replicate 4 x00)
    /\ take 12 (drop 36 out) = productid tail'.
Proof.
  destruct (fix_checksum_productid LittleEndian demo_image 128 demo_tail 64)
    as (out & tail' & Hrun & Hname & _ & Hout & _).
  - apply demo_tail_wf.
  - vm_compute. lia.
  - by vm_compute.
  - lia.
  - vm_compute. reflexivity.
  - exists out, tail'. split; [exact Hrun|]. split; [exact Hname|exact Hout].
Defined.

Lemma fix_checksum_frame_witness :
  exists out tail',
    fix_checksum LittleEndian demo_image 128 demo_tail = Ok (out, tail')
    /\ length out = 128%nat
    /\ drop 64 out = replicate 64 xaa.
Proof.
  destruct (fix_checksum_frame LittleEndian demo_image 128 demo_tail 64)
    as (out & tail' & Hrun & Hlen & _ & _ & _ & Hpay).
  - apply demo_tail_wf.
  - vm_compute. lia.
  - by vm_compute.
  - lia.
  - vm_compute. reflexivity.
  - exists out, tail'. split; [exact Hrun|]. split; [exact Hlen|exact Hpay].
Defined.

(** The run on the demo image, byte for byte: the output agrees with what
    zlib's crc32 gives for this header (0xd10e16bb). *)
Example demo_run :
  exists out tail',
    fix_checksum LittleEndian demo_image 128 demo_tail = Ok (out, tail')
    /\ take 8 out = [x27; x05; x19; x56; xd1; x0e; x16; xbb]
    /\ take 32 (drop 32 out)
       = [x03; x00; x00; x04]
         ++ bytes_of_string "OpenWrt" ++ [x00; x00; x00; x00; x00]
         ++ [x7e; x01; x02; xcd; x00; x7c] ++ replicate 10 x00.
Proof. eexists _, _. split; [vm_compute; reflexivity|]. split; reflexivity. Qed.

(** A buffer too short to hold the data-size field: the read of
    [ih_size] comes before the size check. *)
Example empty_buffer (h : byte_order) (tail : TAIL) :
  fix_checksum h [] 0 tail = OutOfBounds 12 4.
Proof. reflexivity. Qed.

(** * Further properties of the code *)

(** ** How a call of fix_checksum can end *)

Lemma load_bytes_oob (image : list byte) (off : Z) (n : nat) :
  Z.of_nat (length image) < off + Z.of_nat n ->
  load_bytes image off n = OutOfBounds off n.
Proof.
  intros H. unfold load_bytes.
  destruct (in_bounds image off n) eqn:E; [|done].
  apply in_bounds_true in E. lia.
Qed.

Lemma fix_checksum_Exit (h : byte_order) (image : list byte) (image_len : Z)
    (tail : TAIL) (status : Z) (msg : string) :
  fix_checksum h image image_len tail = Exit status msg ->
  status = 1 /\ msg = too_small
  /\ exists off, checksum_b_offset h image = Some off /\ image_len < off.
Proof.
  unfold fix_checksum, checksum_b_offset, load_uint32, load_uint8, store_uint32,
    load_bytes, store_bytes.
  destruct (in_bounds image off_ih_size 4); cbn [bind]; [|discriminate].
  destruct (in_bounds image 0 1); cbn [bind]; [|discriminate].
  match goal with |- context [?len <? ?off] =>
    destruct (len <? off) eqn:Hcheck end.
  - intros [= <- <-]. apply Z.ltb_lt in Hcheck. eauto.
  - repeat (match goal with |- context [in_bounds ?i ?o ?n] =>
              destruct (in_bounds i o n) end; cbn [bind]; try discriminate).
Qed.

Lemma fix_checksum_short (h : byte_order) (image : list byte) (image_len : Z)
    (tail : TAIL) :
  (length image < 16)%nat ->
  fix_checksum h image image_len tail = OutOfBounds 12 4.
Proof.
  intros Hlen. unfold fix_checksum, load_uint32, off_ih_size.
  by rewrite load_bytes_oob by lia.
Qed.

(** X1.  With a well-formed tail record, [fix_checksum] returns exactly
    when the buffer holds the 64-byte header, the size check passes and
    the byte at [checksum_b_offset] lies inside the buffer. *)
Theorem fix_checksum_returns_iff (h : byte_order) (image : list byte)
    (image_len : Z) (tail : TAIL) :
  TAIL_wf tail ->
  (exists out tail', fix_checksum h image image_len tail = Ok (out, tail'))
  <-> (64 <= length image)%nat
      /\ exists off,
           checksum_b_offset h image = Some off
           /\ ~ image_len < off
           /\ off < Z.of_nat (length image).
Proof.
  intros [Hp Hh _ _]. split.
  - intros (out & tail' & Hrun).
    destruct (fix_checksum_Ok _ _ _ _ _ _ Hrun) as (off & ? & ? & ? & ?).
    eauto.
  - intros (Hlen & off & Hoff & Hcheck & Hlt).
    destruct (fix_checksum_ok h image image_len tail off Hp Hh Hlen Hoff)
      as (a & b & _ & _ & Hrun); [lia|done|].
    eauto.
Qed.

Lemma fix_checksum_returns_iff_witness :
  exists out tail',
    fix_checksum LittleEndian demo_image 128 demo_tail = Ok (out, tail').
Proof.
  apply (fix_checksum_returns_iff LittleEndian demo_image 128 demo_tail).
  - apply demo_tail_wf.
  - split; [vm_compute; lia|]. exists 64.
    split; [by vm_compute|]. split; [lia|by vm_compute].
Defined.

(** X2.  [fix_checksum] ends the process exactly when the size check
    fails, and then always with status 1 and the message "too small uImage
    size": it has no other way to exit. *)
Theorem fix_checksum_exits_iff (h : byte_order) (image : list byte)
    (image_len : Z) (tail : TAIL) (status : Z) (msg : string) :
  fix_checksum h image image_len tail = Exit status msg
  <-> status = 1 /\ msg = too_small
      /\ exists off, checksum_b_offset h image = Some off /\ image_len < off.
Proof.
  split; [apply fix_checksum_Exit|].
  intros (-> & -> & off & Hoff & Hlt).
  by apply fix_checksum_too_small with off.
Qed.

(** X3.  With a well-formed tail record, [fix_checksum] reads or writes
    outside the buffer exactly when the buffer is shorter than 16 bytes,
    or the size check passes although the buffer ends at or before
    [checksum_b_offset] or is shorter than the 64-byte header. *)
Theorem fix_checksum_faults_iff (h : byte_order) (image : list byte)
    (image_len : Z) (tail : TAIL) :
  TAIL_wf tail ->
  (exists off n, fix_checksum h image image_len tail = OutOfBounds off n)
  <-> (length image < 16)%nat
      \/ exists off,
           checksum_b_offset h image = Some off
           /\ ~ image_len < off
           /\ (Z.of_nat (length image) <= off \/ (length image < 64)%nat).
Proof.
  intros [Hp Hh _ _]. split.
  - intros (o & n & Hrun).
    destruct (decide (length image < 16)%nat) as [|Hlen]; [by left|right].
    pose proof (checksum_b_offset_eq h image ltac:(lia)) as Hoff.
    eexists. split; [exact Hoff|].
    set (off := (be_decode (take 4 (drop 12 image)) + 64) / 2) in *.
    split.
    + intros Hlt.
      rewrite (fix_checksum_too_small h image image_len tail off Hoff Hlt)
        in Hrun.
      discriminate.
    + destruct (decide (Z.of_nat (length image) <= off)); [by left|right].
      destruct (decide (length image < 64)%nat) as [|H64]; [done|exfalso].
      destruct (decide (image_len < off)) as [Hlt|Hge].
      * rewrite (fix_checksum_too_small h image image_len tail off Hoff Hlt)
          in Hrun.
        discriminate.
      * destruct (fix_checksum_ok h image image_len tail off Hp Hh)
          as (a & b & _ & _ & Hok); [lia|done|lia|lia|].
        cbv zeta in Hok. rewrite Hok in Hrun. discriminate.
  - intros Hcase.
    destruct (fix_checksum h image image_len tail) as [[out tail']|s m|o n]
      eqn:Hrun; [exfalso|exfalso|eauto].
    + destruct (fix_checksum_Ok _ _ _ _ _ _ Hrun) as (off & Hoff & ? & ? & ?).
      destruct Hcase as [|(off' & Hoff' & _ & Hcase)]; [lia|].
      assert (off' = off) as -> by congruence. lia.
    + destruct (fix_checksum_Exit _ _ _ _ _ _ Hrun)
        as (_ & _ & off & Hoff & Hlt).
      destruct Hcase as [Hs|(off' & Hoff' & Hge & _)].
      * apply checksum_b_offset_Some in Hoff as [? _]. lia.
      * assert (off' = off) as -> by congruence. done.
Qed.

Lemma fix_checksum_faults_iff_witness :
  exists off n, fix_checksum LittleEndian demo_header 64 demo_tail
                = OutOfBounds off n.
Proof.
  apply (fix_checksum_faults_iff LittleEndian demo_header 64 demo_tail).
  - apply demo_tail_wf.
  - right. exists 64. split; [by vm_compute|]. split; [lia|].
    left. vm_compute. discriminate.
Defined.

(** ** The tail record across a call *)

Lemma fixed_tail_again (image : list byte) (tail : TAIL) (a b : byte) :
  (64 <= length image)%nat ->
  fixed_tail image (fixed_tail image tail a b) a b = fixed_tail image tail a b.
Proof.
  intros Hlen. unfold fixed_tail, set_productid, set_key.
  cbn [kernel fs productid sn en pkey key hw]. f_equal. f_equal.
  apply drop_app_length'. rewrite length_take, length_drop. lia.
Qed.

Lemma fix_checksum_Ok_eq (h : byte_order) (image : list byte) (image_len : Z)
    (tail : TAIL) (out : list byte) (tail' : TAIL) :
  length (productid tail) = MAX_STRING -> length (hw tail) = MAX_VER ->
  fix_checksum h image image_len tail = Ok (out, tail') ->
  exists off a b,
    checksum_b_offset h image = Some off
    /\ ~ image_len < off /\ off < Z.of_nat (length image)
    /\ (64 <= length image)%nat
    /\ image !! 0%nat = Some a /\ image !! Z.to_nat off = Some b
    /\ tail' = fixed_tail image tail a b
    /\ out = list_inserts 4
               (be_encode 4 (crc32 0 (take 64 (overlaid h image tail'))))
               (overlaid h image tail').
Proof.
  intros Hp Hh Hrun.
  destruct (fix_checksum_Ok _ _ _ _ _ _ Hrun) as (off & Hoff & Hge & Hlt & Hlen).
  destruct (fix_checksum_ok h image image_len tail off Hp Hh Hlen Hoff)
    as (a & b & Ha & Hb & Hok); [lia|done|].
  cbv zeta in Hok. rewrite Hok in Hrun. injection Hrun as <- <-.
  exists off, a, b. done.
Qed.

(** X4.  The tail record [fix_checksum] hands back is a fixed point: a call
    on the same buffer with that record returns the same buffer and the
    same record, and the record is still well formed. *)
Theorem fix_checksum_again (h : byte_order) (image : list byte)
    (image_len : Z) (tail : TAIL) (out : list byte) (tail' : TAIL) :
  TAIL_wf tail ->
  fix_checksum h image image_len tail = Ok (out, tail') ->
  TAIL_wf tail'
  /\ fix_checksum h image image_len tail' = Ok (out, tail').
Proof.
  intros [Hp Hh Hs He] Hrun.
  destruct (fix_checksum_Ok_eq _ _ _ _ _ _ Hp Hh Hrun)
    as (off & a & b & Hoff & Hge & Hlt & Hlen & Ha & Hb & Ht & Hout).
  pose proof (length_fixed_productid image tail a b Hlen Hp) as Hp'.
  rewrite <- Ht in Hp'.
  assert (hw tail' = hw tail) as Hhw by by rewrite Ht.
  split.
  { constructor; [done|by rewrite Hhw|by rewrite Ht|by rewrite Ht]. }
  destruct (fix_checksum_ok h image image_len tail' off Hp')
    as (a' & b' & Ha' & Hb' & Hok); [by rewrite Hhw|done|done|lia|done|].
  assert (a' = a) as -> by congruence.
  assert (b' = b) as -> by congruence.
  cbv zeta in Hok. rewrite Hok.
  assert (fixed_tail image tail' a b = tail') as ->
    by (rewrite Ht; by apply fixed_tail_again).
  by rewrite Hout.
Qed.

Lemma fix_checksum_again_witness :
  exists out tail',
    fix_checksum LittleEndian demo_image 128 demo_tail = Ok (out, tail')
    /\ fix_checksum LittleEndian demo_image 128 tail' = Ok (out, tail').
Proof.
  destruct (fix_checksum_ok LittleEndian demo_image 128 demo_tail 64)
    as (a & b & _ & _ & Hrun);
    [reflexivity|reflexivity|vm_compute; lia|by vm_compute|lia
    |by vm_compute|].
  cbv zeta in Hrun. eexists _, _. split; [exact Hrun|].
  exact (proj2 (fix_checksum_again _ _ _ _ _ _ demo_tail_wf Hrun)).
Defined.

Lemma out_slice (h : byte_order) (image : list byte) (t : TAIL) (crc : Z)
    (i n : nat) :
  (64 <= length image)%nat ->
  length (productid t) = MAX_STRING -> length (hw t) = MAX_VER ->
  (i + n <= 32)%nat ->
  take n (drop (32 + i)
            (list_inserts 4 (be_encode 4 crc) (overlaid h image t)))
  = take n (drop i (TAIL_bytes h t)).
Proof.
  intros Hlen Hp Hh Hin.
  rewrite <- (out_tail h image t crc Hlen Hp Hh).
  rewrite take_drop_take by done. by rewrite drop_drop.
Qed.

Lemma tail_members_stored (h : byte_order) (image : list byte)
    (image_len : Z) (tail : TAIL) (out : list byte) (tail' : TAIL) :
  TAIL_wf tail ->
  fix_checksum h image image_len tail = Ok (out, tail') ->
  (kernel tail' = kernel tail /\ fs tail' = fs tail
   /\ sn tail' = sn tail /\ en tail' = en tail
   /\ pkey tail' = pkey tail /\ hw tail' = hw tail)
  /\ take 4 (drop 32 out) = version_bytes (kernel tail) ++ version_bytes (fs tail)
  /\ take 2 (drop 48 out) = host_encode h 2 (sn tail)
  /\ take 2 (drop 50 out) = host_encode h 2 (en tail)
  /\ out !! 52%nat = Some (pkey tail)
  /\ take 10 (drop 54 out) = concat (version_bytes <$> hw tail).
Proof.
  intros [Hp Hh Hs He] Hrun.
  destruct (fix_checksum_Ok_eq _ _ _ _ _ _ Hp Hh Hrun)
    as (off & a & b & Hoff & Hge & Hlt & Hlen & Ha & Hb & Ht & Hout).
  pose proof (length_fixed_productid image tail a b Hlen Hp) as Hp'.
  rewrite <- Ht in Hp'.
  assert (kernel tail' = kernel tail /\ fs tail' = fs tail
          /\ sn tail' = sn tail /\ en tail' = en tail
          /\ pkey tail' = pkey tail /\ hw tail' = hw tail)
    as (Hk & Hf & Hsn & Hen & Hpk & Hhw) by by rewrite Ht.
  split; [done|].
  assert (length (hw tail') = MAX_VER) as Hh' by by rewrite Hhw.
  assert (forall i n, (i + n <= 32)%nat ->
            take n (drop (32 + i) out) = take n (drop i (TAIL_bytes h tail')))
    as Hslice
    by (intros i n Hin; rewrite Hout; by apply out_slice).
  rewrite <- Hk, <- Hf, <- Hsn, <- Hen, <- Hpk, <- Hhw.
  clear Hk Hf Hsn Hen Hpk Hhw Ht Hout Hrun.
  assert (take 1 (drop 52 out) = [pkey tail']) as Hpkey.
  { change (drop 52 out) with (drop (32 + 20) out).
    rewrite (Hslice 20%nat 1%nat) by lia. unfold TAIL_bytes.
    destruct (productid tail')
      as [|p0 [|p1 [|p2 [|p3 [|p4 [|p5 [|p6 [|p7 [|p8 [|p9 [|p10 [|p11 [|]]]]]]]]]]]]];
      try discriminate.
    by destruct h. }
  split; [|split; [|split; [|split]]].
  - change (drop 32 out) with (drop (32 + 0) out).
    by rewrite (Hslice 0%nat 4%nat) by lia.
  - change (drop 48 out) with (drop (32 + 16) out).
    rewrite (Hslice 16%nat 2%nat) by lia. unfold TAIL_bytes.
    destruct (productid tail')
      as [|p0 [|p1 [|p2 [|p3 [|p4 [|p5 [|p6 [|p7 [|p8 [|p9 [|p10 [|p11 [|]]]]]]]]]]]]];
      try discriminate.
    by destruct h.
  - change (drop 50 out) with (drop (32 + 18) out).
    rewrite (Hslice 18%nat 2%nat) by lia. unfold TAIL_bytes.
    destruct (productid tail')
      as [|p0 [|p1 [|p2 [|p3 [|p4 [|p5 [|p6 [|p7 [|p8 [|p9 [|p10 [|p11 [|]]]]]]]]]]]]];
      try discriminate.
    by destruct h.
  - apply (f_equal (fun l : list byte => l !! 0%nat)) in Hpkey.
    by rewrite lookup_take_lt, lookup_drop in Hpkey by lia.
  - change (drop 54 out) with (drop (32 + 22) out).
    rewrite (Hslice 22%nat 10%nat) by lia. unfold TAIL_bytes.
    destruct (productid tail')
      as [|p0 [|p1 [|p2 [|p3 [|p4 [|p5 [|p6 [|p7 [|p8 [|p9 [|p10 [|p11 [|]]]]]]]]]]]]];
      try discriminate.
    destruct (hw tail') as [|v0 [|v1 [|v2 [|v3 [|v4 [|]]]]]]; try discriminate.
    by destruct h.
Qed.

(** X5.  [fix_checksum] changes no member of the tail record but [key] and
    [productid], and the buffer it returns holds the other members at
    their places in the name field: the four version bytes at 32, [sn] at
    48 and [en] at 50 in host byte order, [pkey] at 52, [hw] at 54. *)
Theorem fix_checksum_tail_members (h : byte_order) (image : list byte)
    (image_len : Z) (tail : TAIL) (out : list byte) (tail' : TAIL) :
  TAIL_wf tail ->
  fix_checksum h image image_len tail = Ok (out, tail') ->
  (kernel tail' = kernel tail /\ fs tail' = fs tail
   /\ sn tail' = sn tail /\ en tail' = en tail
   /\ pkey tail' = pkey tail /\ hw tail' = hw tail)
  /\ take 4 (drop 32 out) = version_bytes (kernel tail) ++ version_bytes (fs tail)
  /\ take 2 (drop 48 out) = host_encode h 2 (sn tail)
  /\ take 2 (drop 50 out) = host_encode h 2 (en tail)
  /\ out !! 52%nat = Some (pkey tail)
  /\ take 10 (drop 54 out) = concat (version_bytes <$> hw tail).
Proof. apply tail_members_stored. Qed.

Lemma fix_checksum_tail_members_witness :
  exists out,
    take 4 (drop 32 out) = [x03; x00; x00; x04]
    /\ take 2 (drop 48 out) = [x7e; x01].
Proof.
  destruct (fix_checksum_ok LittleEndian demo_image 128 demo_tail 64)
    as (a & b & _ & _ & Hrun);
    [reflexivity|reflexivity|vm_compute; lia|by vm_compute|lia
    |by vm_compute|].
  cbv zeta in Hrun.
  destruct (fix_checksum_tail_members _ _ _ _ _ _ demo_tail_wf Hrun)
    as (_ & Hv & Hsn & _).
  eexists. split; [exact Hv|exact Hsn].
Defined.

(** ** Images the patcher accepts *)

Lemma checksum_b_offset_bounds (h : byte_order) (image : list byte) (off : Z) :
  checksum_b_offset h image = Some off ->
  off = (be_decode (take 4 (drop 12 image)) + 64) / 2
  /\ 32 <= off < 2 ^ 31 + 32.
Proof.
  intros Hoff.
  pose proof (checksum_b_offset_Some _ _ _ Hoff) as (Hlen & _ & _).
  rewrite (checksum_b_offset_eq h image Hlen) in Hoff. injection Hoff as <-.
  split; [done|].
  pose proof (be_decode_range (take 4 (drop 12 image))) as Hr.
  rewrite length_take, length_drop in Hr.
  replace (8 * Z.of_nat (4 `min` (length image - 12))) with 32 in Hr by lia.
  split.
  - apply Z.div_le_lower_bound; lia.
  - apply Z.div_lt_upper_bound; lia.
Qed.

(** X6.  A file that is at least as long as its header says (64 bytes of
    header and the declared data size) is always accepted: the size check
    passes, [fix_checksum] returns, and [main] exits with status 0 having
    written the buffer; stderr holds what the option loop left there (the
    diagnostics of [getopt] and the version warnings) and nothing more. *)
Theorem complete_image_is_patched (h : byte_order) (image : list byte) :
  64 + be_decode (take 4 (drop 12 image)) <= Z.of_nat (length image) ->
  (forall tail,
     TAIL_wf tail ->
     exists out tail',
       fix_checksum h image (Z.of_nat (length image)) tail = Ok (out, tail'))
  /\ forall w prog opts,
       reads w (getopt_loop opts) image ->
       write_errno w = None ->
       exists out,
         main h w prog opts
         = {| how := Exited 0; stderr := warnings (getopt_loop opts);
              output := Written out |}.
Proof.
  intros Hsize.
  pose proof (be_decode_range (take 4 (drop 12 image))) as [Hr _].
  assert (64 <= length image)%nat as Hlen by lia.
  pose proof (checksum_b_offset_eq h image ltac:(lia)) as Hoff.
  apply (size_check_passes h image _ Hlen Hoff).
  apply Z.div_lt_upper_bound; lia.
Qed.

Lemma complete_image_is_patched_witness :
  exists out,
    main LittleEndian (file_world demo_image) "asus_qca_fix_checksum"
      (demo_opts demo_version)
    = {| how := Exited 0; stderr := ""; output := Written out |}.
Proof.
  refine (proj2 (complete_image_is_patched LittleEndian demo_image _)
            (file_world demo_image) "asus_qca_fix_checksum"%string
            (demo_opts demo_version) _ eq_refl).
  - vm_compute. discriminate.
  - apply reads_file_world.
Defined.

(** ** A second pass over the output *)

Lemma take_drop_out_frame (h : byte_order) (image : list byte) (t : TAIL)
    (crc : Z) (i n : nat) :
  (64 <= length image)%nat ->
  length (productid t) = MAX_STRING -> length (hw t) = MAX_VER ->
  (8 <= i)%nat -> (i + n <= 32)%nat ->
  take n (drop i (list_inserts 4 (be_encode 4 crc) (overlaid h image t)))
  = take n (drop i image).
Proof.
  intros Hlen Hp Hh Hi Hin. apply list_eq; intros j.
  destruct (decide (j < n)%nat).
  - rewrite !lookup_take_lt, !lookup_drop by done.
    apply out_frame; [done..|lia|lia].
  - by rewrite !lookup_take_ge by lia.
Qed.

Lemma take_11_TAIL_bytes (h : byte_order) (t : TAIL) :
  length (productid t) = MAX_STRING ->
  take 11 (TAIL_bytes h t)
  = version_bytes (kernel t) ++ version_bytes (fs t) ++ take 7 (productid t).
Proof.
  intros Hp. unfold TAIL_bytes, version_bytes. cbn [app take].
  do 4 f_equal. apply take_app_le. rewrite Hp. unfold MAX_STRING. lia.
Qed.

(** X7.  Patching the output of a patch always goes through: the data-size
    field and the length are as before, so [checksum_b_offset] is the same
    and the size check passes again.  The second pass takes its product id
    from the overlaid record, so it begins with the four version bytes of
    the first pass followed by the first seven bytes of the original name;
    when [checksum_b_offset] is at least 64 both checksum bytes are
    untouched and the key is the same. *)
Theorem second_pass (h : byte_order) (image : list byte) (image_len : Z)
    (tail1 tail2 : TAIL) (out1 : list byte) (tail1' : TAIL) :
  TAIL_wf tail1 -> TAIL_wf tail2 ->
  fix_checksum h image image_len tail1 = Ok (out1, tail1') ->
  exists out2 tail2',
    fix_checksum h out1 image_len tail2 = Ok (out2, tail2')
    /\ checksum_b_offset h out1 = checksum_b_offset h image
    /\ take 11 (productid tail2')
       = version_bytes (kernel tail1) ++ version_bytes (fs tail1)
         ++ take 7 (drop 32 image)
    /\ (forall off,
          checksum_b_offset h image = Some off -> 64 <= off ->
          key tail2' = key tail1').
Proof.
  intros [Hp1 Hh1 _ _] [Hp2 Hh2 _ _] Hrun.
  destruct (fix_checksum_Ok_eq _ _ _ _ _ _ Hp1 Hh1 Hrun)
    as (off & a & b & Hoff & Hge & Hlt & Hlen & Ha & Hb & Ht & Hout).
  pose proof (length_fixed_productid image tail1 a b Hlen Hp1) as Hp1'.
  rewrite <- Ht in Hp1'.
  assert (length (hw tail1') = MAX_VER) as Hh1' by by rewrite Ht.
  set (crc := crc32 0 (take 64 (overlaid h image tail1'))) in *.
  assert (length out1 = length image) as Hlen1
    by (rewrite Hout; by apply length_out).
  assert (forall i : nat, ~ (4 <= i < 8)%nat -> ~ (32 <= i < 64)%nat ->
            out1 !! i = image !! i) as Hframe
    by (intros i H1 H2; rewrite Hout; by apply out_frame).
  assert (checksum_b_offset h out1 = checksum_b_offset h image) as Hoff1.
  { rewrite !checksum_b_offset_eq by lia.
    by rewrite Hout, take_drop_out_frame by (done || lia). }
  destruct (fix_checksum_ok h out1 image_len tail2 off Hp2 Hh2)
    as (a2 & b2 & Ha2 & Hb2 & Hok); [lia|congruence|lia|lia|].
  cbv zeta in Hok. eexists _, _. split; [exact Hok|]. split; [done|].
  assert (a2 = a) as ->.
  { rewrite Hframe in Ha2 by lia. congruence. }
  split.
  - cbn [fixed_tail productid set_productid].
    assert (length (take 11 (drop 32 out1)) = 11%nat) as H11
      by (rewrite length_take, length_drop; lia).
    rewrite take_app_length' by done.
    change (drop 32 out1) with (drop (32 + 0) out1).
    rewrite Hout, out_slice by (done || lia).
    rewrite drop_0, take_11_TAIL_bytes by done.
    assert (kernel tail1' = kernel tail1 /\ fs tail1' = fs tail1
            /\ productid tail1'
               = take 11 (drop 32 image) ++ drop 11 (productid tail1))
      as (-> & -> & ->) by by rewrite Ht.
    do 2 f_equal. rewrite take_app_le by (rewrite length_take, length_drop; lia).
    rewrite take_take. done.
  - intros off' Hoff' H64. assert (off' = off) as -> by congruence.
    assert (b2 = b) as ->.
    { rewrite Hframe in Hb2 by lia. congruence. }
    by rewrite Ht.
Qed.

Lemma second_pass_witness :
  exists out1 tail1' out2 tail2',
    fix_checksum LittleEndian demo_image 128 demo_tail = Ok (out1, tail1')
    /\ fix_checksum LittleEndian out1 128 demo_tail = Ok (out2, tail2')
    /\ take 11 (productid tail2')
       = [x03; x00; x00; x04] ++ bytes_of_string "OpenWrt".
Proof.
  destruct (fix_checksum_ok LittleEndian demo_image 128 demo_tail 64)
    as (a & b & _ & _ & Hrun);
    [reflexivity|reflexivity|vm_compute; lia|by vm_compute|lia
    |by vm_compute|].
  cbv zeta in Hrun.
  destruct (second_pass _ _ _ _ demo_tail _ _ demo_tail_wf demo_tail_wf Hrun)
    as (out2 & tail2' & Hrun2 & _ & Hid & _).
  eexists _, _, out2, tail2'. split; [exact Hrun|]. split; [exact Hrun2|].
  exact Hid.
Defined.

(** ** The header CRC of the input *)

Lemma list_inserts_commute {A : Type} (l k k' : list A) (i j : nat) :
  (i + length k <= j)%nat ->
  list_inserts i k (list_inserts j k' l) = list_inserts j k' (list_inserts i k l).
Proof.
  intros Hij. apply list_eq; intros m.
  destruct (decide (m < length l)%nat) as [Hm|Hm];
    [|by rewrite !lookup_ge_None_2 by (rewrite !length_inserts; lia)].
  destruct (decide (m < i)%nat).
  { by rewrite !list_lookup_inserts_lt by lia. }
  destruct (decide (m < i + length k)%nat).
  { rewrite list_lookup_inserts by (rewrite ?length_inserts; lia).
    rewrite list_lookup_inserts_lt by lia.
    by rewrite list_lookup_inserts by lia. }
  rewrite (list_lookup_inserts_ge _ i) by lia.
  destruct (decide (m < j)%nat).
  { rewrite !list_lookup_inserts_lt by lia.
    by rewrite list_lookup_inserts_ge by lia. }
  destruct (decide (m < j + length k')%nat).
  { by rewrite !list_lookup_inserts by (rewrite ?length_inserts; lia). }
  by rewrite !list_lookup_inserts_ge by lia.
Qed.

Lemma in_bounds_inserts (image k : list byte) (i : nat) (off : Z) (n : nat) :
  in_bounds (list_inserts i k image) off n = in_bounds image off n.
Proof. unfold in_bounds. by rewrite length_inserts. Qed.

Lemma load_bytes_inserts (image k : list byte) (i : nat) (off : Z) (n : nat) :
  off + Z.of_nat n <= Z.of_nat i \/ Z.of_nat (i + length k) <= off ->
  load_bytes (list_inserts i k image) off n = load_bytes image off n.
Proof.
  intros Hout. unfold load_bytes. rewrite in_bounds_inserts.
  destruct (in_bounds image off n) eqn:E; [|done].
  apply in_bounds_true in E. f_equal. apply list_eq; intros j.
  destruct (decide (j < n)%nat).
  - rewrite !lookup_take_lt, !lookup_drop by done.
    destruct Hout.
    + by rewrite list_lookup_inserts_lt by lia.
    + by rewrite list_lookup_inserts_ge by lia.
  - by rewrite !lookup_take_ge by lia.
Qed.

Lemma ntohl_range (h : byte_order) (v : Z) : 0 <= ntohl h v < 2 ^ 32.
Proof.
  unfold ntohl.
  pose proof (be_decode_range (host_encode h 4 v)) as Hr.
  by rewrite length_host_encode in Hr.
Qed.

(** X8.  The header CRC the input file carries plays no part: whatever
    four bytes stand at offsets 4 to 7 on entry, [fix_checksum] ends the
    same way and returns the same buffer and tail record. *)
Theorem fix_checksum_ignores_hcrc (h : byte_order) (image : list byte)
    (image_len : Z) (tail : TAIL) (c : list byte) :
  length c = 4%nat ->
  fix_checksum h (list_inserts 4 c image) image_len tail
  = fix_checksum h image image_len tail.
Proof.
  intros Hc. unfold fix_checksum, load_uint32, load_uint8.
  unfold off_ih_size, off_u, off_ih_hcrc.
  rewrite (load_bytes_inserts image c 4 12) by lia.
  destruct (load_bytes image 12 4) as [bs| |]; cbn [bind]; [|done..].
  rewrite (load_bytes_inserts image c 4 0) by lia.
  destruct (load_bytes image 0 1) as [bs0| |]; cbn [bind]; [|done..].
  set (off := checksum_b_offset_of (ntohl h (host_decode h bs))).
  assert (32 <= off) as Hoff.
  { unfold off. pose proof (ntohl_range h (host_decode h bs)).
    rewrite checksum_b_offset_of_small by done.
    apply Z.div_le_lower_bound; lia. }
  destruct (image_len <? off); [done|].
  rewrite (load_bytes_inserts image c 4 off) by lia.
  destruct (load_bytes image off 1) as [bs1| |]; cbn [bind]; [|done..].
  rewrite (load_bytes_inserts image c 4 32) by lia.
  destruct (load_bytes image 32 (MAX_STRING - 1)) as [name| |];
    cbn [bind]; [|done..].
  unfold store_uint32, store_bytes.
  rewrite in_bounds_inserts.
  match goal with |- context [in_bounds image 32 ?n] =>
    destruct (in_bounds image 32 n) end; cbn [bind]; [|done].
  rewrite !in_bounds_inserts, !length_host_encode.
  destruct (in_bounds image 4 4); cbn [bind]; [|done].
  change (Z.to_nat 32) with 32%nat. change (Z.to_nat 4) with 4%nat.
  rewrite <- (list_inserts_commute image c _ 4 32) by lia.
  rewrite (list_inserts_twice _ (host_encode h 4 0) c)
    by by rewrite length_host_encode.
  done.
Qed.

Lemma fix_checksum_ignores_hcrc_witness :
  fix_checksum LittleEndian (list_inserts 4 [xde; xad; xbe; xef] demo_image)
    128 demo_tail
  = fix_checksum LittleEndian demo_image 128 demo_tail.
Proof. apply fix_checksum_ignores_hcrc. reflexivity. Defined.

(** ** The option loop *)

Lemma handle_option_names (o : options) (g : ascii * string) :
  (infname (handle_option o g)
   = if (g.1 =? "i")%char then Some g.2 else infname o)
  /\ (outfname (handle_option o g)
      = if (g.1 =? "i")%char then outfname o
        else if (g.1 =? "o")%char then Some g.2 else outfname o)
  /\ (version (handle_option o g)
      = if (g.1 =? "i")%char then version o
        else if (g.1 =? "o")%char then version o
        else if (g.1 =? "v")%char then Some g.2 else version o).
Proof.
  destruct g as [opt optarg]. unfold handle_option. cbn [fst snd].
  destruct (opt =? "i")%char; [done|].
  destruct (opt =? "o")%char; [done|].
  destruct (opt =? "v")%char; [|by destruct (opt =? "?")%char].
  by destruct (sscanf_version optarg (tail o)).
Qed.

Lemma getopt_names_given (opts : list (ascii * string)) (o : options) :
  (is_Some (infname (foldl handle_option o opts))
   <-> is_Some (infname o) \/ given "i" opts)
  /\ (is_Some (outfname (foldl handle_option o opts))
      <-> is_Some (outfname o) \/ given "o" opts)
  /\ (is_Some (version (foldl handle_option o opts))
      <-> is_Some (version o) \/ given "v" opts).
Proof.
  unfold given. revert o.
  induction opts as [|[opt optarg] opts IH]; intros o; cbn [foldl].
  { rewrite !Exists_nil. tauto. }
  destruct (IH (handle_option o (opt, optarg))) as (Hi & Ho & Hv).
  destruct (handle_option_names o (opt, optarg)) as (Ei & Eo & Ev).
  rewrite Hi, Ho, Hv, Ei, Eo, Ev, !Exists_cons. clear. cbn [fst snd].
  assert (is_Some (Some optarg)) as Hsome by eauto.
  destruct (Ascii.eqb_spec opt "i") as [->|Ni].
  { cbn. repeat split; intros; intuition discriminate. }
  destruct (Ascii.eqb_spec opt "o") as [->|No].
  { cbn. repeat split; intros; intuition discriminate. }
  destruct (Ascii.eqb_spec opt "v") as [->|Nv].
  { cbn. repeat split; intros; intuition discriminate. }
  repeat split; intros; intuition discriminate.
Qed.

(** X9.  The three options are mandatory: when [-i], [-o] or [-v] does not
    occur on the command line, [main] touches no file, writes the usage
    text for the program name after any version warnings, and exits with
    status 1, whatever the system would answer. *)
Theorem main_usage (h : byte_order) (w : world) (prog : string)
    (opts : list (ascii * string)) :
  ~ (given "i" opts /\ given "o" opts /\ given "v" opts) ->
  main h w prog opts
  = {| how := Exited 1;
       stderr := warnings (getopt_loop opts) +:+ usage prog;
       output := NotWritten |}.
Proof.
  intros Hmissing.
  destruct (getopt_names_given opts options_init) as (Hi & Ho & Hv).
  fold (getopt_loop opts) in Hi, Ho, Hv. unfold main.
  destruct (infname (getopt_loop opts)) as [inf|];
    destruct (outfname (getopt_loop opts)) as [outf|];
    destruct (version (getopt_loop opts)) as [ver|]; try done.
  exfalso. apply Hmissing.
  split; [|split].
  - destruct (proj1 Hi) as [[? [=]]|]; eauto.
  - destruct (proj1 Ho) as [[? [=]]|]; eauto.
  - destruct (proj1 Hv) as [[? [=]]|]; eauto.
Qed.

Lemma main_usage_witness :
  main LittleEndian (file_world demo_image) "asus_qca_fix_checksum"
    [("i"%char, "uImage"%string); ("v"%char, demo_version)]
  = {| how := Exited 1; stderr := usage "asus_qca_fix_checksum";
       output := NotWritten |}.
Proof.
  apply (main_usage LittleEndian (file_world demo_image)
           "asus_qca_fix_checksum"
           [("i"%char, "uImage"%string); ("v"%char, demo_version)]).
  intros (_ & Ho & _). unfold given in Ho.
  apply Exists_cons in Ho as [Ho|Ho]; [discriminate|].
  apply Exists_cons in Ho as [Ho|Ho]; [discriminate|].
  by apply Exists_nil in Ho.
Defined.

Lemma getopt_names_kept (opts : list (ascii * string)) (o : options) :
  (~ given "i" opts -> infname (foldl handle_option o opts) = infname o)
  /\ (~ given "o" opts -> outfname (foldl handle_option o opts) = outfname o)
  /\ (~ given "v" opts -> version (foldl handle_option o opts) = version o).
Proof.
  unfold given. revert o.
  induction opts as [|[opt optarg] opts IH]; intros o; cbn [foldl]; [done|].
  destruct (IH (handle_option o (opt, optarg))) as (Hi & Ho & Hv).
  destruct (handle_option_names o (opt, optarg)) as (Ei & Eo & Ev).
  cbn [fst snd] in Ei, Eo, Ev. rewrite !Exists_cons. cbn [fst].
  split; [|split]; intros Hno.
  - rewrite Hi, Ei by tauto.
    destruct (Ascii.eqb_spec opt "i"); [tauto|done].
  - rewrite Ho, Eo by tauto.
    destruct (Ascii.eqb_spec opt "i"); [done|].
    destruct (Ascii.eqb_spec opt "o"); [tauto|done].
  - rewrite Hv, Ev by tauto.
    destruct (Ascii.eqb_spec opt "i"); [done|].
    destruct (Ascii.eqb_spec opt "o"); [done|].
    destruct (Ascii.eqb_spec opt "v"); [tauto|done].
Qed.

(** X10.  An option given more than once counts with its last argument:
    the input file is that of the last [-i], the output file that of the
    last [-o], and the version string kept is that of the last [-v]. *)
Theorem getopt_last_wins (before after : list (ascii * string)) (a : string) :
  (~ given "i" after ->
   infname (getopt_loop (before ++ ("i"%char, a) :: after)) = Some a)
  /\ (~ given "o" after ->
      outfname (getopt_loop (before ++ ("o"%char, a) :: after)) = Some a)
  /\ (~ given "v" after ->
      version (getopt_loop (before ++ ("v"%char, a) :: after)) = Some a).
Proof.
  unfold getopt_loop. rewrite !foldl_app. cbn [foldl].
  split; [|split]; intros Hno.
  - rewrite (proj1 (getopt_names_kept after _) Hno).
    by rewrite (proj1 (handle_option_names _ _)).
  - rewrite (proj1 (proj2 (getopt_names_kept after _)) Hno).
    by rewrite (proj1 (proj2 (handle_option_names _ _))).
  - rewrite (proj2 (proj2 (getopt_names_kept after _)) Hno).
    by rewrite (proj2 (proj2 (handle_option_names _ _))).
Qed.

(** ** The ways main ends *)

Lemma fix_checksum_length (h : byte_order) (image : list byte) (image_len : Z)
    (tail : TAIL) (out : list byte) (tail' : TAIL) :
  fix_checksum h image image_len tail = Ok (out, tail') ->
  length out = length image.
Proof.
  unfold fix_checksum. intros Hrun.
  apply bind_Ok in Hrun as (ih_size & _ & Hrun).
  apply bind_Ok in Hrun as (a & _ & Hrun).
  match type of Hrun with context [?len <? ?off] =>
    destruct (len <? off) end; [discriminate|].
  apply bind_Ok in Hrun as (b & _ & Hrun).
  apply bind_Ok in Hrun as (name & _ & Hrun).
  apply bind_Ok in Hrun as (image1 & Hstore & Hrun).
  apply bind_Ok in Hrun as (image2 & Hzero & Hrun).
  apply bind_Ok in Hrun as (hdr & _ & Hrun).
  apply bind_Ok in Hrun as (image3 & Hcrc & Hrun).
  injection Hrun as <- _.
  apply store_bytes_Ok in Hstore, Hzero, Hcrc. congruence.
Qed.

(** X11.  A run of [main] that stays inside the buffer exits with status
    0 or 1 and nothing else.  Status 0 means that the three options were
    given, no call failed, [fix_checksum] returned and the whole buffer was
    written; the bytes written are as many as the input file has, and
    stderr holds what the option loop left there (the diagnostics of
    [getopt] and the version warnings) and nothing more.  With status 1
    the buffer was never written in full.  The only other end is an access
    outside the buffer inside [fix_checksum], reached with the input file
    read. *)
Theorem main_outcome (h : byte_order) (w : world) (prog : string)
    (opts : list (ascii * string)) :
  let o := getopt_loop opts in
  let r := main h w prog opts in
  match how r with
  | Exited status =>
      (status = 0
       /\ exists image out tail',
            reads w o image /\ write_errno w = None
            /\ fix_checksum h image (Z.of_nat (length image)) (tail o)
               = Ok (out, tail')
            /\ output r = Written out
            /\ length out = length image
            /\ stderr r = warnings o)
      \/ (status = 1 /\ forall out, output r <> Written out)
  | Undefined off n =>
      exists image,
        reads w o image
        /\ fix_checksum h image (Z.of_nat (length image)) (tail o)
           = OutOfBounds off n
  end.
Proof.
  cbv zeta. unfold main.
  destruct (infname (getopt_loop opts)) as [inf|] eqn:Hi; [|by right].
  destruct (outfname (getopt_loop opts)) as [outf|] eqn:Ho; [|by right].
  destruct (version (getopt_loop opts)) as [ver|] eqn:Hv; [|by right].
  destruct (open_rdonly w inf) as [e|image] eqn:Hin; [by right|].
  destruct (open_wronly_creat w outf) as [e|] eqn:Hout; [by right|].
  destruct (fstat_errno w) as [e|] eqn:Hstat; [by right|].
  destruct (malloc_null w) eqn:Hmalloc; [by right|].
  destruct (read_errno w) as [e|] eqn:Hread; [by right|].
  assert (reads w (getopt_loop opts) image) as Hreads.
  { exists inf, outf. rewrite Hv. repeat split; eauto. }
  destruct (fix_checksum h image (Z.of_nat (length image))
              (tail (getopt_loop opts)))
    as [[out tail']|status msg|off n] eqn:Hrun.
  - destruct (write_errno w) as [e|] eqn:Hwrite; [by right|].
    left. split; [done|]. exists image, out, tail'.
    repeat split; try done. by apply fix_checksum_length in Hrun.
  - cbn [how output]. right.
    by apply fix_checksum_Exit in Hrun as (-> & _ & _).
  - cbn [how output]. eauto.
Qed.

(** ** sscanf on dotted numbers *)

Lemma sscanf_fields_components (cs : list string) :
  forall (fields : list version_field) (n : Z) (t : TAIL) (rest : string),
    cs <> [] ->
    (length cs <= length fields)%nat ->
    Forall (fun c => all_digits c = true) cs ->
    ends_number rest = true ->
    ((length cs < length fields)%nat -> ends_fields rest = true) ->
    sscanf_fields fields (String.concat "." cs +:+ rest) n t
    = (n + Z.of_nat (length cs),
       assign_all (zip fields ((fun c => strtoul false (number c)) <$> cs)) t).
Proof.
  induction cs as [|c cs IH]; intros fields n t rest Hne Hlen Hcs Hrest Hstop;
    [done|].
  apply Forall_cons in Hcs as [Hc Hcs].
  destruct fields as [|f fields]; [cbn in Hlen; lia|].
  destruct cs as [|c' cs].
  - cbn [String.concat sscanf_fields]. rewrite scan_unsigned_number by done.
    cbn [length fmap list_fmap zip zip_with assign_all foldl fst snd].
    destruct fields as [|f' fields]; [done|].
    assert (ends_fields rest = true) as Hends by (apply Hstop; cbn; lia).
    destruct rest as [|b rest]; [done|].
    cbn in Hends. apply andb_true_iff in Hends as [_ Hb].
    apply negb_true_iff in Hb. cbn [scan_period]. by rewrite Hb.
  - change (String.concat "." (c :: c' :: cs))
      with (c +:+ "." +:+ String.concat "." (c' :: cs)).
    rewrite !string_app_assoc. cbn [sscanf_fields].
    rewrite scan_unsigned_number by done.
    destruct fields as [|f' fields]; [cbn in Hlen; lia|].
    rewrite string_app_cons. change ("" +:+ ?x) with x.
    cbn [scan_period Ascii.eqb Bool.eqb].
    rewrite IH; [|done|cbn in *; lia|done|done|cbn in *; intros; apply Hstop; lia].
    cbn [length fmap list_fmap zip zip_with assign_all foldl fst snd].
    f_equal. lia.
Qed.

(** X12.  A version string made of one to six decimal numbers separated by
    periods is converted in full: [sscanf] returns the number of
    components and stores each number, as [strtoul] reads it and narrowed
    to its field, in order.  After six components anything that is not a
    digit may follow and is ignored; the warning is printed exactly when
    there are fewer than six. *)
Theorem sscanf_components (cs : list string) (rest : string) (o : options) :
  cs <> [] ->
  (length cs <= 6)%nat ->
  Forall (fun c => all_digits c = true) cs ->
  ends_number rest = true ->
  ((length cs < 6)%nat -> ends_fields rest = true) ->
  let ver := String.concat "." cs +:+ rest in
  sscanf_version ver (tail o)
  = (Z.of_nat (length cs),
     assign_all
       (zip version_fields ((fun c => strtoul false (number c)) <$> cs))
       (tail o))
  /\ tail (handle_option o ("v"%char, ver)) = (sscanf_version ver (tail o)).2
  /\ warnings (handle_option o ("v"%char, ver))
     = if decide (length cs = 6%nat) then warnings o
       else warnings o +:+ bad_version ver.
Proof.
  intros Hne Hlen Hcs Hrest Hstop ver.
  assert (sscanf_version ver (tail o)
          = (Z.of_nat (length cs),
             assign_all
               (zip version_fields ((fun c => strtoul false (number c)) <$> cs))
               (tail o))) as Hscan.
  { unfold sscanf_version, ver.
    by rewrite sscanf_fields_components. }
  split; [done|]. rewrite handle_option_v. cbn [tail warnings].
  split; [done|]. rewrite Hscan. cbn [fst].
  destruct (decide (length cs = 6%nat)) as [->|Hn]; [done|].
  by rewrite (proj2 (Z.eqb_neq _ 6)) by lia.
Qed.

Lemma sscanf_components_witness :
  sscanf_version "3.0.0.4.382.52482-beta" TAIL_zero
  = (6, assign_all
          (zip version_fields [3; 0; 0; 4; 382; 52482]) TAIL_zero).
Proof.
  refine (proj1 (sscanf_components
                   ["3"; "0"; "0"; "4"; "382"; "52482"]%string "-beta"
                   options_init _ _ _ _ _)).
  - discriminate.
  - cbn. lia.
  - repeat constructor.
  - reflexivity.
  - cbn. lia.
Defined.

(** ** A second -v *)

(** X13.  [-v] given again scans into the same tail record: the fields the
    new string does not convert keep what the earlier options left there
    (they are not reset to zero), the members [productid], [pkey], [key]
    and [hw] are never touched by the option loop, and the warning for the
    new string is added to those already written. *)
Theorem repeated_version (opts : list (ascii * string)) (ver : string) :
  let o := getopt_loop opts in
  let o' := getopt_loop (opts ++ [("v"%char, ver)]) in
  let n := (sscanf_version ver (tail o)).1 in
  (forall i f,
     version_fields !! i = Some f -> Z.max n 0 <= Z.of_nat i ->
     field_value f (tail o') = field_value f (tail o))
  /\ productid (tail o') = productid (tail o)
  /\ pkey (tail o') = pkey (tail o)
  /\ key (tail o') = key (tail o)
  /\ hw (tail o') = hw (tail o)
  /\ warnings o'
     = if n =? 6 then warnings o else warnings o +:+ bad_version ver.
Proof.
  cbv zeta. unfold getopt_loop. rewrite foldl_app. cbn [foldl].
  fold (getopt_loop opts). rewrite handle_option_v. cbn [tail warnings].
  generalize (tail (getopt_loop opts)). intros t.
  destruct (sscanf_fields_assigns version_fields ver 0 t)
    as (vs & Hl & Ht & Hc); [lia|].
  fold (sscanf_version ver t) in Ht, Hc.
  assert (Z.max (sscanf_version ver t).1 0 = Z.of_nat (length vs)) as Hn.
  { destruct Hc as [->|(_ & -> & ->)]; [lia|done]. }
  rewrite Hn, Ht. clear Hn Ht Hc.
  split; [|by destruct vs as [|v0 [|v1 [|v2 [|v3 [|v4 [|v5 vs]]]]]]].
  destruct vs as [|v0 [|v1 [|v2 [|v3 [|v4 [|v5 vs]]]]]];
    intros [|[|[|[|[|[|i]]]]]] f; cbn; intros; simplify_eq; cbn;
    done || lia.
Qed.

Example repeated_version_demo :
  let o := getopt_loop [("v"%char, "1.2.3.4.5.6"%string);
                        ("v"%char, "9"%string)] in
  field_value kernel_major (tail o) = 9
  /\ field_value kernel_minor (tail o) = 2
  /\ sn (tail o) = 5 /\ en (tail o) = 6
  /\ warnings o = bad_version "9".
Proof. by vm_compute. Qed.

(** ** The byte order of the build host *)

Lemma TAIL_bytes_split (h : byte_order) (t : TAIL) :
  length (productid t) = MAX_STRING ->
  take 16 (TAIL_bytes h t)
  = version_bytes (kernel t) ++ version_bytes (fs t) ++ productid t
  /\ take 4 (drop 16 (TAIL_bytes h t))
     = host_encode h 2 (sn t) ++ host_encode h 2 (en t)
  /\ drop 20 (TAIL_bytes h t)
     = [pkey t; key t] ++ concat (version_bytes <$> hw t).
Proof.
  intros Hp. unfold TAIL_bytes.
  destruct (productid t)
    as [|p0 [|p1 [|p2 [|p3 [|p4 [|p5 [|p6 [|p7 [|p8 [|p9 [|p10 [|p11 [|]]]]]]]]]]]]];
    try discriminate.
  by destruct h.
Qed.

Lemma TAIL_bytes_host (t : TAIL) (j : nat) :
  length (productid t) = MAX_STRING ->
  ~ (16 <= j < 20)%nat ->
  TAIL_bytes LittleEndian t !! j = TAIL_bytes BigEndian t !! j.
Proof.
  intros Hp Hj.
  destruct (TAIL_bytes_split LittleEndian t Hp) as (HL1 & _ & HL2).
  destruct (TAIL_bytes_split BigEndian t Hp) as (HB1 & _ & HB2).
  destruct (decide (j < 16)%nat).
  - rewrite <- (lookup_take_lt (TAIL_bytes LittleEndian t) 16 j) by done.
    rewrite <- (lookup_take_lt (TAIL_bytes BigEndian t) 16 j) by done.
    by rewrite HL1, HB1.
  - replace j with (20 + (j - 20))%nat by lia.
    rewrite <- !lookup_drop. by rewrite HL2, HB2.
Qed.

(** X14.  The byte order of the host that runs the tool shows in the
    output: [sn] and [en] are stored as the host keeps them, so a
    big-endian host writes their two bytes in the opposite order, and the
    header CRC follows.  Whether the run returns, and every other byte of
    the output and the tail record returned, do not depend on the host. *)
Theorem host_byte_order (image : list byte) (image_len : Z) (tail : TAIL)
    (outL : list byte) (tail' : TAIL) :
  TAIL_wf tail ->
  fix_checksum LittleEndian image image_len tail = Ok (outL, tail') ->
  exists outB,
    fix_checksum BigEndian image image_len tail = Ok (outB, tail')
    /\ (forall i : nat,
          ~ (4 <= i < 8)%nat -> ~ (48 <= i < 52)%nat -> outB !! i = outL !! i)
    /\ take 2 (drop 48 outB) = reverse (take 2 (drop 48 outL))
    /\ take 2 (drop 50 outB) = reverse (take 2 (drop 50 outL)).
Proof.
  intros Hwf HrunL. pose proof Hwf as [Hp Hh _ _].
  destruct (fix_checksum_Ok_eq _ _ _ _ _ _ Hp Hh HrunL)
    as (off & a & b & Hoff & Hge & Hlt & Hlen & Ha & Hb & Ht & HoutL).
  assert (checksum_b_offset BigEndian image = Some off) as HoffB
    by (rewrite checksum_b_offset_eq in * by lia; done).
  destruct (fix_checksum_ok BigEndian image image_len tail off Hp Hh Hlen HoffB)
    as (a' & b' & Ha' & Hb' & HrunB); [lia|done|].
  assert (a' = a) as -> by congruence.
  assert (b' = b) as -> by congruence.
  cbv zeta in HrunB. rewrite <- Ht in HrunB.
  eexists. split; [exact HrunB|].
  destruct (tail_members_stored LittleEndian _ _ _ _ _ Hwf HrunL)
    as (_ & _ & HsnL & HenL & _).
  destruct (tail_members_stored BigEndian _ _ _ _ _ Hwf HrunB)
    as (_ & _ & HsnB & HenB & _).
  pose proof (length_fixed_productid image tail a b Hlen Hp) as Hp'.
  rewrite <- Ht in Hp'.
  assert (length (hw tail') = MAX_VER) as Hh' by by rewrite Ht.
  split; [|split].
  - intros i H1 H2. rewrite HoutL.
    destruct (decide (32 <= i < 64)%nat) as [Hin|Hout].
    + pose proof (out_tail LittleEndian image tail'
                    (crc32 0 (take 64 (overlaid LittleEndian image tail')))
                    Hlen Hp' Hh') as HL.
      pose proof (out_tail BigEndian image tail'
                    (crc32 0 (take 64 (overlaid BigEndian image tail')))
                    Hlen Hp' Hh') as HB.
      apply (f_equal (fun l : list byte => l !! (i - 32)%nat)) in HL, HB.
      rewrite lookup_take_lt, lookup_drop in HL, HB by lia.
      replace (32 + (i - 32))%nat with i in HL, HB by lia.
      rewrite HL, HB. symmetry. apply TAIL_bytes_host; [done|lia].
    + by rewrite !out_frame by done.
  - by rewrite HsnB, HsnL.
  - by rewrite HenB, HenL.
Qed.

Lemma host_byte_order_witness :
  exists outL outB tail',
    fix_checksum LittleEndian demo_image 128 demo_tail = Ok (outL, tail')
    /\ fix_checksum BigEndian demo_image 128 demo_tail = Ok (outB, tail')
    /\ take 2 (drop 48 outB) = reverse (take 2 (drop 48 outL)).
Proof.
  destruct (fix_checksum_ok LittleEndian demo_image 128 demo_tail 64)
    as (a & b & _ & _ & Hrun);
    [reflexivity|reflexivity|vm_compute; lia|by vm_compute|lia
    |by vm_compute|].
  cbv zeta in Hrun.
  destruct (host_byte_order _ _ _ _ _ demo_tail_wf Hrun)
    as (outB & HrunB & _ & Hsn & _).
  eexists _, outB, _. split; [exact Hrun|]. split; [exact HrunB|exact Hsn].
Defined.

Example host_byte_order_demo :
  exists outL outB tail',
    fix_checksum LittleEndian demo_image 128 demo_tail = Ok (outL, tail')
    /\ fix_checksum BigEndian demo_image 128 demo_tail = Ok (outB, tail')
    /\ take 4 (drop 48 outL) = [x7e; x01; x02; xcd]
    /\ take 4 (drop 48 outB) = [x01; x7e; xcd; x02].
Proof.
  eexists _, _, _. split; [vm_compute; reflexivity|].
  split; [vm_compute; reflexivity|]. split; reflexivity.
Qed.

(** ** The rest of the image name *)

Lemma list_inserts_cover {A : Type} (l k k' : list A) (i j : nat) :
  (j <= i)%nat -> (i + length k <= j + length k')%nat ->
  list_inserts j k' (list_inserts i k l) = list_inserts j k' l.
Proof.
  intros Hji Hcover. apply list_eq; intros m.
  destruct (decide (m < length l)%nat) as [Hm|Hm];
    [|by rewrite !lookup_ge_None_2 by (rewrite !length_inserts; lia)].
  destruct (decide (m < j)%nat).
  { by rewrite !list_lookup_inserts_lt by lia. }
  destruct (decide (m < j + length k')%nat).
  { by rewrite !list_lookup_inserts by (rewrite ?length_inserts; lia). }
  by rewrite !list_lookup_inserts_ge by lia.
Qed.

(** X15.  Of the 32-byte image name only the first 11 bytes survive.  When
    [checksum_b_offset] is 64 or more (the data is at least 64 bytes
    long), bytes 43 to 63 of the input have no effect at all: whatever
    stands there, [fix_checksum] ends the same way with the same buffer
    and tail record. *)
Theorem name_rest_discarded (h : byte_order) (image : list byte)
    (image_len : Z) (tail : TAIL) (off : Z) (k : list byte) :
  TAIL_wf tail ->
  length k = 21%nat ->
  checksum_b_offset h image = Some off ->
  64 <= off ->
  fix_checksum h (list_inserts 43 k image) image_len tail
  = fix_checksum h image image_len tail.
Proof.
  intros [Hp Hh _ _] Hk Hoff H64.
  unfold checksum_b_offset, load_uint32 in Hoff.
  unfold fix_checksum, load_uint32, load_uint8.
  unfold off_ih_size, off_u, off_ih_hcrc in *.
  rewrite (load_bytes_inserts image k 43 12) by lia.
  destruct (load_bytes image 12 4) as [bs| |]; cbn [bind] in *; [|done..].
  injection Hoff as Hoff. rewrite Hoff.
  rewrite (load_bytes_inserts image k 43 0) by lia.
  destruct (load_bytes image 0 1) as [bs0| |]; cbn [bind]; [|done..].
  destruct (image_len <? off); [done|].
  rewrite (load_bytes_inserts image k 43 off) by lia.
  destruct (load_bytes image off 1) as [bs1| |]; cbn [bind]; [|done..].
  rewrite (load_bytes_inserts image k 43 32) by (unfold MAX_STRING; lia).
  destruct (load_bytes image 32 (MAX_STRING - 1)) as [name| |] eqn:Hname;
    cbn [bind]; [|done..].
  unfold store_bytes. rewrite in_bounds_inserts.
  match goal with |- context [in_bounds image 32 ?n] =>
    destruct (in_bounds image 32 n) end; cbn [bind]; [|done].
  change (Z.to_nat 32) with 32%nat.
  rewrite list_inserts_cover; [done|lia|].
  rewrite length_TAIL_bytes; [lia| |done].
  cbn [productid set_productid set_key].
  apply load_bytes_Ok in Hname as Hb. unfold load_bytes in Hname.
  destruct (in_bounds image 32 (MAX_STRING - 1)); [|discriminate].
  injection Hname as <-.
  rewrite length_app, length_take, !length_drop, Hp. unfold MAX_STRING in *.
  lia.
Qed.

Lemma name_rest_discarded_witness :
  fix_checksum LittleEndian (list_inserts 43 (replicate 21 xff) demo_image)
    128 demo_tail
  = fix_checksum LittleEndian demo_image 128 demo_tail.
Proof.
  apply (name_rest_discarded LittleEndian demo_image 128 demo_tail 64).
  - apply demo_tail_wf.
  - reflexivity.
  - by vm_compute.
  - lia.
Defined.
